(** * trek: simple database migrations -- a shallow embedding

    The repository holds two snapshots of the engine.  The one embedded
    here is the snapshot with the [running] column and
    [errMigrationAlreadyRunning] (src/unnamed/part_003), the one that
    src/trek_test.go exercises ([TestGetVersionError],
    [TestRunDownWithError], ...).  src/trek.go is the earlier snapshot:
    no [running] column, [runUp]/[runDown] start from [newVersion = 0],
    a migration without [Up] is still recorded, and options are
    [interface{}] values.  [Register], [versionAlreadyRegistered],
    [runMigrations] and the body of the [parseOptions] switch are the same
    in both; the earlier [parseOptions] is embedded in [Module Legacy].

    Conventions.
    - [int64] values are [Z]; the only arithmetic of the package,
      [m.Version - 1], is wrapped with [wrap64].
    - A Go [error] is [option error], [None] being [nil].
    - A [nil] handler is [None].
    - The package-level slice [migrations] is passed and returned
      explicitly; [*sql.DB] is the state of a small state monad [Sql]. *)

From Stdlib Require Import ZArith List String Bool Lia.
From Stdlib Require Import Sorting.Sorted Sorting.Permutation.
Import ListNotations.
Open Scope Z_scope.

(** ** Errors *)

Inductive error : Type :=
| errUnrecognizedDatabase
| errUnrecognizedAction
| errPreviousMigrationNotFound
| errVersionAlreadyRegistered
| errMigrationAlreadyRunning
| ErrNoRows                 (* sql.ErrNoRows *)
| ErrDriver (msg : string)  (* any other failure of database/sql *)
| ErrUser (msg : string).   (* errors.New(msg) returned by a handler *)

(** ** Constants *)

Definition UP : string := "up"%string.
Definition DOWN : string := "down"%string.
Definition POSTGRES : string := "postgres"%string.
Definition MYSQL : string := "mysql"%string.

(** ** int64 *)

Definition min_int64 : Z := - 2 ^ 63.
Definition max_int64 : Z := 2 ^ 63 - 1.

Definition wrap64 (z : Z) : Z := (z + 2 ^ 63) mod 2 ^ 64 - 2 ^ 63.

Definition sub64 (a b : Z) : Z := wrap64 (a - b).

(** ** The database seen through [*sql.DB]

    Only what the package observes is kept: the [migrations] relation
    (absent until created), the names of the user's own relations, and a
    schedule of driver outcomes.  Every round trip to the server consumes
    the head of [faults]; [Some msg] makes that call fail with
    [ErrDriver msg], an empty schedule never fails.  The column
    [created_at] is never read. *)

Record row : Type := mkRow {
  row_id : Z;
  row_version : Z;
  row_running : bool
}.

Record table : Type := mkTable {
  next_id : Z;          (* the sequence behind SERIAL / AUTO_INCREMENT *)
  rows : list row
}.

Record DB : Type := mkDB {
  history : option table;
  relations : list string;
  faults : list (option string)
}.

Definition empty_table : table := mkTable 1 [].

Definition with_history (h : option table) (db : DB) : DB :=
  mkDB h (relations db) (faults db).

Definition with_faults (fs : list (option string)) (db : DB) : DB :=
  mkDB (history db) (relations db) fs.

(** ** The state monad of SQL calls *)

Definition Sql (A : Type) : Type := DB -> A * DB.

Definition ret {A : Type} (a : A) : Sql A := fun db => (a, db).

Definition bind {A B : Type} (m : Sql A) (k : A -> Sql B) : Sql B :=
  fun db => let (a, db') := m db in k a db'.

Notation "x <- m ;; k" := (bind m (fun x => k))
  (at level 61, m at next level, right associativity).

Notation "' pat <- m ;; k" := (bind m (fun x => match x with pat => k end))
  (at level 61, pat pattern, m at next level, right associativity).

(** One round trip: the driver's verdict for this call. *)
Definition roundtrip : Sql (option error) :=
  fun db =>
    match faults db with
    | [] => (None, db)
    | None :: fs => (None, with_faults fs db)
    | Some msg :: fs => (Some (ErrDriver msg), with_faults fs db)
    end.

Definition no_such_table : error := ErrDriver "relation migrations does not exist"%string.

(** [db.Exec(`CREATE TABLE IF NOT EXISTS migrations (...)`)] *)
Definition exec_create_table : Sql (option error) :=
  e <- roundtrip ;;
  match e with
  | Some _ => ret e
  | None =>
      fun db =>
        match history db with
        | Some _ => (None, db)
        | None => (None, with_history (Some empty_table) db)
        end
  end.

(** [db.Prepare(`INSERT INTO migrations (version, running) VALUES (..)`)] *)
Definition prepare_insert : Sql (option error) :=
  e <- roundtrip ;;
  match e with
  | Some _ => ret e
  | None =>
      fun db =>
        match history db with
        | Some _ => (None, db)
        | None => (Some no_such_table, db)
        end
  end.

Definition insert_row (version : Z) (running : bool) (t : table) : table :=
  mkTable (next_id t + 1) (rows t ++ [mkRow (next_id t) version running]).

(** [stmt.Exec(version, running)] *)
Definition stmt_exec (version : Z) (running : bool) : Sql (option error) :=
  e <- roundtrip ;;
  match e with
  | Some _ => ret e
  | None =>
      fun db =>
        match history db with
        | Some t => (None, with_history (Some (insert_row version running t)) db)
        | None => (Some no_such_table, db)
        end
  end.

(** [ORDER BY id DESC LIMIT 1] *)
Fixpoint latest (rs : list row) : option row :=
  match rs with
  | [] => None
  | r :: rs' =>
      match latest rs' with
      | Some r' => if row_id r <? row_id r' then Some r' else Some r
      | None => Some r
      end
  end.

(** [db.QueryRow(`SELECT version, running FROM migrations ORDER BY id DESC
    LIMIT 1`).Scan(&currentVersion, &running)]: the two scanned values
    (left at their zero values when the scan fails) and the error. *)
Definition query_latest : Sql (Z * bool * option error) :=
  e <- roundtrip ;;
  match e with
  | Some _ => ret (0, false, e)
  | None =>
      fun db =>
        match history db with
        | None => ((0, false, Some no_such_table), db)
        | Some t =>
            match latest (rows t) with
            | None => ((0, false, Some ErrNoRows), db)
            | Some r => ((row_version r, row_running r, None), db)
            end
        end
  end.

(** ** Types of the package *)

Definition migrationHandler : Type := Sql (option error).

Record configuration : Type := mkConfig {
  Action : string;
  Database : string
}.

Record migration : Type := mkMigration {
  Version : Z;
  Up : option migrationHandler;
  Down : option migrationHandler
}.

(** ** Registry *)

Fixpoint versionAlreadyRegistered (migrations : list migration) (version : Z) : bool :=
  match migrations with
  | [] => false
  | m :: rest =>
      if Version m =? version then true
      else versionAlreadyRegistered rest version
  end.

Definition Register (migrations : list migration)
    (version : Z) (up down : option migrationHandler)
    : list migration * option error :=
  if versionAlreadyRegistered migrations version
  then (migrations, Some errVersionAlreadyRegistered)
  else (migrations ++ [mkMigration version up down], None).

(** A sequence of [Register] calls; the errors are collected in call order. *)
Fixpoint RegisterAll (migrations : list migration)
    (calls : list (Z * option migrationHandler * option migrationHandler))
    : list migration * list (option error) :=
  match calls with
  | [] => (migrations, [])
  | (v, u, d) :: rest =>
      let (ms, e) := Register migrations v u d in
      let (ms', es) := RegisterAll ms rest in
      (ms', e :: es)
  end.

(** ** [sort.Sort(byVersion(migrations))]

    [sort.Sort] belongs to the Go standard library and is not stable.  It
    is embedded by an insertion sort driven by [Less]; when the versions
    are pairwise distinct (the invariant [Register] maintains) every
    sorting algorithm returns this same slice. *)

Definition Less (a b : migration) : bool := Version a <? Version b.

Fixpoint insert_byVersion (m : migration) (ms : list migration) : list migration :=
  match ms with
  | [] => [m]
  | x :: xs => if Less x m then x :: insert_byVersion m xs else m :: x :: xs
  end.

Fixpoint sort_byVersion (ms : list migration) : list migration :=
  match ms with
  | [] => []
  | m :: rest => insert_byVersion m (sort_byVersion rest)
  end.

(** ** Options *)

Fixpoint parseOptions_loop (config : configuration) (options : list string)
    : configuration :=
  match options with
  | [] => config
  | opt :: rest =>
      let config' :=
        if String.eqb opt UP then config
        else if String.eqb opt DOWN then mkConfig opt (Database config)
        else if String.eqb opt POSTGRES then config
        else if String.eqb opt MYSQL then mkConfig (Action config) opt
        else config in
      parseOptions_loop config' rest
  end.

Definition parseOptions (options : list string) : configuration :=
  parseOptions_loop (mkConfig UP POSTGRES) options.

Module Legacy.

(** src/trek.go takes [...interface{}]: a value is looked at only when
    [reflect.ValueOf(opt).Kind() == reflect.String]. *)
Inductive value : Type :=
| VString (s : string)
| VOther.

Fixpoint parseOptions_loop (config : configuration) (options : list value)
    : configuration :=
  match options with
  | [] => config
  | opt :: rest =>
      let config' :=
        match opt with
        | VString str =>
            if String.eqb str UP then config
            else if String.eqb str DOWN then mkConfig str (Database config)
            else if String.eqb str POSTGRES then config
            else if String.eqb str MYSQL then mkConfig (Action config) str
            else config
        | VOther => config
        end in
      parseOptions_loop config' rest
  end.

Definition parseOptions (options : list value) : configuration :=
  parseOptions_loop (mkConfig UP POSTGRES) options.

End Legacy.

(** ** Bookkeeping store *)

Definition createTable (config : configuration) : Sql (option error) :=
  if String.eqb (Database config) POSTGRES then exec_create_table
  else if String.eqb (Database config) MYSQL then exec_create_table
  else ret (Some errUnrecognizedDatabase).

(** Returns [(currentVersion, err)]. *)
Definition getVersion : Sql (Z * option error) :=
  '(currentVersion, running, err) <- query_latest ;;
  match err with
  | Some e =>
      match e with
      | ErrNoRows => ret (0, None)
      | _ => ret (currentVersion, err)
      end
  | None =>
      if running then ret (currentVersion, Some errMigrationAlreadyRunning)
      else ret (currentVersion, None)
  end.

Definition setVersion (config : configuration) (version : Z) (running : bool)
    : Sql (option error) :=
  if String.eqb (Database config) POSTGRES || String.eqb (Database config) MYSQL
  then
    err <- prepare_insert ;;
    match err with
    | Some _ => ret err
    | None => stmt_exec version running
    end
  else ret (Some errUnrecognizedDatabase).

(** ** Migration engine *)

(** The three calls made for one pending migration [m] whose [Up] is [up]. *)
Definition applyUp (config : configuration) (m : migration)
    (up : migrationHandler) : Sql (option error) :=
  err <- setVersion config (Version m) true ;;
  match err with
  | Some _ => ret err
  | None =>
      err <- up ;;
      match err with
      | Some _ => ret err
      | None => setVersion config (Version m) false
      end
  end.

(** [h == nil] for a handler. *)
Definition is_nil (h : option migrationHandler) : bool :=
  match h with
  | Some _ => false
  | None => true
  end.

(** The [for _, m := range migrations] loop of [runUp]; [newVersion] is the
    named result as it stands when the iteration starts.  The guard leaves
    the last branch of the inner [match] without any input. *)
Fixpoint runUp_loop (config : configuration) (oldVersion newVersion : Z)
    (ms : list migration) : Sql (Z * option error) :=
  match ms with
  | [] => ret (newVersion, None)
  | m :: rest =>
      if (Version m <=? oldVersion) || is_nil (Up m)
      then runUp_loop config oldVersion newVersion rest
      else
        match Up m with
        | Some up =>
            err <- applyUp config m up ;;
            match err with
            | Some _ => ret (newVersion, err)
            | None => runUp_loop config oldVersion (Version m) rest
            end
        | None => runUp_loop config oldVersion newVersion rest
        end
  end.

Definition runUp (migrations : list migration) (config : configuration)
    (oldVersion : Z) : Sql (Z * option error) :=
  runUp_loop config oldVersion oldVersion migrations.

(** [for i := len(migrations) - 1; i >= 0; i--]: the entry of greatest index
    whose version is at most [oldVersion]. *)
Definition findPrevious (migrations : list migration) (oldVersion : Z)
    : option migration :=
  find (fun m => Version m <=? oldVersion) (rev migrations).

(** [if m.Down != nil { err = m.Down(db.DB) }]: a [nil] handler is not
    called and [err] stays [nil]. *)
Definition invoke (h : option migrationHandler) : Sql (option error) :=
  match h with
  | Some handler => handler
  | None => ret None
  end.

Definition runDown (migrations : list migration) (config : configuration)
    (oldVersion : Z) : Sql (Z * option error) :=
  if oldVersion =? 0 then ret (0, None)
  else
    match findPrevious migrations oldVersion with
    | None => ret (oldVersion, Some errPreviousMigrationNotFound)
    | Some m =>
        err <- setVersion config (sub64 (Version m) 1) true ;;
        match err with
        | Some _ => ret (oldVersion, err)
        | None =>
            err <- invoke (Down m) ;;
            match err with
            | Some _ => ret (oldVersion, err)
            | None =>
                err <- setVersion config (sub64 (Version m) 1) false ;;
                match err with
                | Some _ => ret (oldVersion, err)
                | None => ret (sub64 (Version m) 1, None)
                end
            end
        end
    end.

Definition runMigrations (migrations : list migration) (config : configuration)
    (oldVersion : Z) : Sql (Z * option error) :=
  if String.eqb (Action config) UP then runUp migrations config oldVersion
  else if String.eqb (Action config) DOWN then runDown migrations config oldVersion
  else ret (0, Some errUnrecognizedAction).

(** ** Public entry point *)

Record result : Type := mkResult {
  didChange : bool;
  newVersion : Z;
  err : option error
}.

(** [Run] also leaves the package-level slice sorted; the slice after the
    call is the first component. *)
Definition Run (migrations : list migration) (options : list string)
    : Sql (list migration * result) :=
  match migrations with
  | [] => ret (migrations, mkResult false 0 None)
  | _ :: _ =>
      let migrations := sort_byVersion migrations in
      let config := parseOptions options in
      err <- createTable config ;;
      match err with
      | Some _ => ret (migrations, mkResult false 0 err)
      | None =>
          '(oldVersion, err) <- getVersion ;;
          match err with
          | Some _ => ret (migrations, mkResult false 0 err)
          | None =>
              '(newVersion, err) <- runMigrations migrations config oldVersion ;;
              ret (migrations, mkResult (negb (oldVersion =? newVersion)) newVersion err)
          end
      end
  end.

(** ** The earlier snapshot of the engine (src/trek.go)

    The [migrations] relation has no [running] column, [getVersion]
    recognizes the empty relation by the text of the error, [runUp] and
    [runDown] leave the named result [newVersion] at its zero value until
    they assign it, and [runUp] calls the up procedure before its single
    version-record write.  [Register], [versionAlreadyRegistered],
    [createTable]'s dispatch and [runMigrations] read as in the later
    snapshot. *)

Module LegacyEngine.

(** [err.Error()] *)
Definition error_text (e : error) : string :=
  match e with
  | errUnrecognizedDatabase => "trek: unrecognized database"
  | errUnrecognizedAction => "trek: unrecognized action"
  | errPreviousMigrationNotFound => "trek: previous migration not found"
  | errVersionAlreadyRegistered => "Version already registered"
  | errMigrationAlreadyRunning => "trek: migration already running"
  | ErrNoRows => "sql: no rows in result set"
  | ErrDriver msg => msg
  | ErrUser msg => msg
  end%string.

(** [errNoRows = errors.New("sql: no rows in result set")] *)
Definition errNoRows_text : string := "sql: no rows in result set"%string.

Record row : Type := mkRow {
  row_id : Z;
  row_version : Z
}.

Record table : Type := mkTable {
  next_id : Z;
  rows : list row
}.

Record DB : Type := mkDB {
  history : option table;
  relations : list string;
  faults : list (option string)
}.

Definition empty_table : table := mkTable 1 [].

Definition with_history (h : option table) (db : DB) : DB :=
  mkDB h (relations db) (faults db).

Definition with_faults (fs : list (option string)) (db : DB) : DB :=
  mkDB (history db) (relations db) fs.

Definition Sql (A : Type) : Type := DB -> A * DB.

Definition ret {A : Type} (a : A) : Sql A := fun db => (a, db).

Definition bind {A B : Type} (m : Sql A) (k : A -> Sql B) : Sql B :=
  fun db => let (a, db') := m db in k a db'.

Local Notation "x <~ m ;; k" := (bind m (fun x => k))
  (at level 61, m at next level, right associativity).

Definition roundtrip : Sql (option error) :=
  fun db =>
    match faults db with
    | [] => (None, db)
    | None :: fs => (None, with_faults fs db)
    | Some msg :: fs => (Some (ErrDriver msg), with_faults fs db)
    end.

Definition exec_create_table : Sql (option error) :=
  e <~ roundtrip ;;
  match e with
  | Some _ => ret e
  | None =>
      fun db =>
        match history db with
        | Some _ => (None, db)
        | None => (None, with_history (Some empty_table) db)
        end
  end.

Definition prepare_insert : Sql (option error) :=
  e <~ roundtrip ;;
  match e with
  | Some _ => ret e
  | None =>
      fun db =>
        match history db with
        | Some _ => (None, db)
        | None => (Some no_such_table, db)
        end
  end.

Definition insert_row (version : Z) (t : table) : table :=
  mkTable (next_id t + 1) (rows t ++ [mkRow (next_id t) version]).

Definition stmt_exec (version : Z) : Sql (option error) :=
  e <~ roundtrip ;;
  match e with
  | Some _ => ret e
  | None =>
      fun db =>
        match history db with
        | Some t => (None, with_history (Some (insert_row version t)) db)
        | None => (Some no_such_table, db)
        end
  end.

Fixpoint latest (rs : list row) : option row :=
  match rs with
  | [] => None
  | r :: rs' =>
      match latest rs' with
      | Some r' => if row_id r <? row_id r' then Some r' else Some r
      | None => Some r
      end
  end.

(** [db.QueryRow(`SELECT version FROM migrations ORDER BY id DESC LIMIT
    1`).Scan(&currentVersion)] *)
Definition query_latest : Sql (Z * option error) :=
  e <~ roundtrip ;;
  match e with
  | Some _ => ret (0, e)
  | None =>
      fun db =>
        match history db with
        | None => ((0, Some no_such_table), db)
        | Some t =>
            match latest (rows t) with
            | None => ((0, Some ErrNoRows), db)
            | Some r => ((row_version r, None), db)
            end
        end
  end.

Definition migrationHandler : Type := Sql (option error).

Record migration : Type := mkMigration {
  Version : Z;
  Up : option migrationHandler;
  Down : option migrationHandler
}.

Definition Less (a b : migration) : bool := Version a <? Version b.

Fixpoint insert_byVersion (m : migration) (ms : list migration) : list migration :=
  match ms with
  | [] => [m]
  | x :: xs => if Less x m then x :: insert_byVersion m xs else m :: x :: xs
  end.

Fixpoint sort_byVersion (ms : list migration) : list migration :=
  match ms with
  | [] => []
  | m :: rest => insert_byVersion m (sort_byVersion rest)
  end.

Definition createTable (config : configuration) : Sql (option error) :=
  if String.eqb (Database config) POSTGRES then exec_create_table
  else if String.eqb (Database config) MYSQL then exec_create_table
  else ret (Some errUnrecognizedDatabase).

Definition getVersion : Sql (Z * option error) :=
  r <~ query_latest ;;
  match snd r with
  | Some e =>
      if String.eqb (error_text e) errNoRows_text
      then ret (0, None)
      else ret r
  | None => ret r
  end.

Definition setVersion (config : configuration) (version : Z)
    : Sql (option error) :=
  if String.eqb (Database config) POSTGRES || String.eqb (Database config) MYSQL
  then
    err <~ prepare_insert ;;
    match err with
    | Some _ => ret err
    | None => stmt_exec version
    end
  else ret (Some errUnrecognizedDatabase).

Definition invoke (h : option migrationHandler) : Sql (option error) :=
  match h with
  | Some handler => handler
  | None => ret None
  end.

Fixpoint runUp_loop (config : configuration) (oldVersion newVersion : Z)
    (ms : list migration) : Sql (Z * option error) :=
  match ms with
  | [] => ret (newVersion, None)
  | m :: rest =>
      if Version m <=? oldVersion
      then runUp_loop config oldVersion newVersion rest
      else
        err <~ invoke (Up m) ;;
        match err with
        | Some _ => ret (newVersion, err)
        | None =>
            err <~ setVersion config (Version m) ;;
            match err with
            | Some _ => ret (newVersion, err)
            | None => runUp_loop config oldVersion (Version m) rest
            end
        end
  end.

Definition runUp (migrations : list migration) (config : configuration)
    (oldVersion : Z) : Sql (Z * option error) :=
  runUp_loop config oldVersion 0 migrations.

Definition findPrevious (migrations : list migration) (oldVersion : Z)
    : option migration :=
  find (fun m => Version m <=? oldVersion) (rev migrations).

Definition runDown (migrations : list migration) (config : configuration)
    (oldVersion : Z) : Sql (Z * option error) :=
  if oldVersion =? 0 then ret (0, None)
  else
    match findPrevious migrations oldVersion with
    | None => ret (0, Some errPreviousMigrationNotFound)
    | Some m =>
        err <~ invoke (Down m) ;;
        match err with
        | Some _ => ret (0, err)
        | None =>
            err <~ setVersion config (sub64 (Version m) 1) ;;
            ret (sub64 (Version m) 1, err)
        end
    end.

Definition runMigrations (migrations : list migration) (config : configuration)
    (oldVersion : Z) : Sql (Z * option error) :=
  if String.eqb (Action config) UP then runUp migrations config oldVersion
  else if String.eqb (Action config) DOWN then runDown migrations config oldVersion
  else ret (0, Some errUnrecognizedAction).

Definition Run (migrations : list migration) (options : list Legacy.value)
    : Sql (list migration * result) :=
  match migrations with
  | [] => ret (migrations, mkResult false 0 None)
  | _ :: _ =>
      let migrations := sort_byVersion migrations in
      let config := Legacy.parseOptions options in
      err <~ createTable config ;;
      match err with
      | Some _ => ret (migrations, mkResult false 0 err)
      | None =>
          r <~ getVersion ;;
          match snd r with
          | Some _ => ret (migrations, mkResult false 0 (snd r))
          | None =>
              r' <~ runMigrations migrations config (fst r) ;;
              ret (migrations,
                   mkResult (negb (fst r =? fst r')) (fst r') (snd r'))
          end
      end
  end.

(** The rows [runUp] appends for a list of versions, in order. *)
Definition record_all (versions : list Z) (t : table) : table :=
  fold_left (fun t v => insert_row v t) versions t.

End LegacyEngine.

(** ** Handlers used by the test-suite *)

(** A handler that does nothing and returns [nil]. *)
Definition noop : migrationHandler := fun db => (None, db).

(** A handler that does nothing and returns [errors.New(msg)]. *)
Definition failing (msg : string) : migrationHandler :=
  fun db => (Some (ErrUser msg), db).

(** * Vocabulary of the properties *)

(** [tok] occurs among the options. *)
Definition mentions (tok : string) (options : list string) : bool :=
  existsb (String.eqb tok) options.

(** The four tokens that have a [case] in [parseOptions]. *)
Definition recognized (tok : string) : bool :=
  String.eqb tok UP || String.eqb tok DOWN
  || String.eqb tok POSTGRES || String.eqb tok MYSQL.

(** The arguments of one [Register] call. *)
Definition call : Type := Z * option migrationHandler * option migrationHandler.

Definition call_version (c : call) : Z := fst (fst c).

(** The entry a successful call appends. *)
Definition call_migration (c : call) : migration :=
  mkMigration (fst (fst c)) (snd (fst c)) (snd c).

(** The order [sort.Sort] establishes. *)
Definition version_le (a b : migration) : Prop := Version a <= Version b.

(** The dialects [createTable] and [setVersion] have a [case] for. *)
Definition recognized_dialect (config : configuration) : Prop :=
  Database config = POSTGRES \/ Database config = MYSQL.

(** The sequence is ahead of every id in use. *)
Definition wf_table (t : table) : Prop :=
  Forall (fun r => row_id r < next_id t) (rows t).

(** The migrations the loop of [runUp] does not skip. *)
Definition pending (oldVersion : Z) (m : migration) : bool :=
  negb ((Version m <=? oldVersion) || is_nil (Up m)).

(** The relation as [CREATE TABLE IF NOT EXISTS] leaves it. *)
Definition the_table (db : DB) : table :=
  match history db with
  | Some t => t
  | None => empty_table
  end.

(** The database records version [v] and no run is in flight. *)
Definition settled_at (db : DB) (v : Z) : Prop :=
  match latest (rows (the_table db)) with
  | None => v = 0
  | Some r => row_version r = v /\ row_running r = false
  end.

(** The driver answers, the relation exists with its sequence ahead of its
    ids, and it records version [v] with no run in flight. *)
Definition ready (db : DB) (v : Z) : Prop :=
  faults db = []
  /\ exists t, history db = Some t /\ wf_table t
       /\ match latest (rows t) with
          | None => v = 0
          | Some r => row_version r = v /\ row_running r = false
          end.

(** A handler that, started on a healthy store, leaves the driver
    answering and the relation in place with its sequence ahead of its
    ids (whatever rows it holds). *)
Definition keeps_store (h : migrationHandler) : Prop :=
  forall db t,
    faults db = [] -> history db = Some t -> wf_table t ->
    faults (snd (h db)) = []
    /\ exists t', history (snd (h db)) = Some t' /\ wf_table t'.

(** A handler that never returns an error. *)
Definition succeeds (h : migrationHandler) : Prop :=
  forall db, fst (h db) = None.

(** A handler that fails and leaves the database as it found it. *)
Definition fails_clean (h : migrationHandler) : Prop :=
  forall db, exists e, h db = (Some e, db).

(** [err == nil] *)
Definition is_none (e : option error) : bool :=
  match e with
  | None => true
  | Some _ => false
  end.

(** Ascending without ties. *)
Definition version_lt (a b : migration) : Prop := Version a < Version b.

(** * Properties *)

(** ** Options *)

Lemma mentions_In tok options : mentions tok options = true <-> In tok options.
Proof.
  unfold mentions. rewrite existsb_exists. split.
  - intros [x [Hin Heq]]. apply String.eqb_eq in Heq. now subst.
  - intros Hin. exists tok. split; [assumption | apply String.eqb_refl].
Qed.

Lemma mentions_app tok xs ys :
  mentions tok (xs ++ ys) = mentions tok xs || mentions tok ys.
Proof. apply existsb_app. Qed.

Lemma mentions_cons_other tok t options :
  t <> tok -> mentions tok (t :: options) = mentions tok options.
Proof.
  intros Hne. unfold mentions. simpl.
  destruct (String.eqb_spec tok t) as [->|_]; [contradiction | reflexivity].
Qed.

(** The loop only ever remembers whether [DOWN] and [MYSQL] were seen. *)
Lemma parseOptions_loop_spec options : forall config,
  parseOptions_loop config options =
  mkConfig (if mentions DOWN options then DOWN else Action config)
           (if mentions MYSQL options then MYSQL else Database config).
Proof.
  induction options as [|opt rest IH]; intros [a d];
    cbn [parseOptions_loop].
  - reflexivity.
  - rewrite IH.
    destruct (String.eqb_spec opt UP) as [->|nUP]; [reflexivity|].
    destruct (String.eqb_spec opt DOWN) as [->|nDOWN].
    { simpl. now destruct (mentions DOWN rest). }
    destruct (String.eqb_spec opt POSTGRES) as [->|nPG]; [reflexivity|].
    destruct (String.eqb_spec opt MYSQL) as [->|nMY].
    { simpl. now destruct (mentions MYSQL rest). }
    now rewrite !mentions_cons_other by assumption.
Qed.

Lemma parseOptions_spec options :
  parseOptions options =
  mkConfig (if mentions DOWN options then DOWN else UP)
           (if mentions MYSQL options then MYSQL else POSTGRES).
Proof. unfold parseOptions. now rewrite parseOptions_loop_spec. Qed.

Lemma parseOptions_dialect options :
  Database (parseOptions options) = POSTGRES \/
  Database (parseOptions options) = MYSQL.
Proof.
  rewrite parseOptions_spec. simpl.
  destruct (mentions MYSQL options); [now right | now left].
Qed.

Lemma parseOptions_skip tok pre post :
  tok <> DOWN -> tok <> MYSQL ->
  parseOptions (pre ++ tok :: post) = parseOptions (pre ++ post).
Proof.
  intros nD nM. rewrite !parseOptions_spec, !mentions_app.
  now rewrite !mentions_cons_other by assumption.
Qed.

(** The earlier snapshot reads the string-kinded values exactly as the
    later one reads its tokens. *)
Lemma Legacy_parseOptions_loop_strings options : forall config,
  Legacy.parseOptions_loop config (map Legacy.VString options) =
  parseOptions_loop config options.
Proof.
  induction options as [|opt rest IH]; intros config; simpl.
  - reflexivity.
  - now rewrite IH.
Qed.

Lemma Legacy_parseOptions_loop_other pre post : forall config,
  Legacy.parseOptions_loop config (pre ++ Legacy.VOther :: post) =
  Legacy.parseOptions_loop config (pre ++ post).
Proof.
  induction pre as [|opt rest IH]; intros config; simpl.
  - reflexivity.
  - now rewrite IH.
Qed.

(** C9: option parsing is a total function into configurations (it has no
    error result); a category without any of its tokens keeps its default,
    [UP] for the action and [POSTGRES] for the database; a token that is
    not recognized can be dropped without changing the result; and
    [MYSQL], [DOWN] in either order give [{DOWN, MYSQL}].  The earlier
    snapshot agrees on string values and ignores the others. *)
Theorem parseOptions_defaults_and_ignores :
  (forall options, ~ In UP options -> ~ In DOWN options ->
     Action (parseOptions options) = UP)
  /\ (forall options, ~ In POSTGRES options -> ~ In MYSQL options ->
     Database (parseOptions options) = POSTGRES)
  /\ (forall pre tok post, recognized tok = false ->
     parseOptions (pre ++ tok :: post) = parseOptions (pre ++ post))
  /\ parseOptions [MYSQL; DOWN] = mkConfig DOWN MYSQL
  /\ parseOptions [DOWN; MYSQL] = mkConfig DOWN MYSQL
  /\ (forall options,
     Legacy.parseOptions (map Legacy.VString options) = parseOptions options)
  /\ (forall pre post,
     Legacy.parseOptions (pre ++ Legacy.VOther :: post) =
     Legacy.parseOptions (pre ++ post)).
Proof.
  repeat split.
  - intros options _ nD. rewrite parseOptions_spec. simpl.
    destruct (mentions DOWN options) eqn:E; [|reflexivity].
    apply mentions_In in E. contradiction.
  - intros options _ nM. rewrite parseOptions_spec. simpl.
    destruct (mentions MYSQL options) eqn:E; [|reflexivity].
    apply mentions_In in E. contradiction.
  - intros pre tok post Hr. unfold recognized in Hr.
    apply orb_false_elim in Hr as [Hr nM].
    apply orb_false_elim in Hr as [Hr _].
    apply orb_false_elim in Hr as [_ nD].
    apply String.eqb_neq in nD, nM. now apply parseOptions_skip.
  - intros options. apply Legacy_parseOptions_loop_strings.
  - intros pre post. apply Legacy_parseOptions_loop_other.
Qed.

Lemma parseOptions_defaults_and_ignores_witness :
  Action (parseOptions ["verbose"%string; MYSQL]) = UP
  /\ Database (parseOptions ["verbose"%string; DOWN]) = POSTGRES
  /\ parseOptions ([DOWN] ++ "verbose"%string :: [MYSQL]) =
     parseOptions ([DOWN] ++ [MYSQL]).
Proof.
  destruct parseOptions_defaults_and_ignores as (HA & HD & HI & _).
  split; [|split].
  - apply HA; simpl; intros [H|[H|[]]]; discriminate H.
  - apply HD; simpl; intros [H|[H|[]]]; discriminate H.
  - apply HI. reflexivity.
Defined.

(** C10: [UP] and [POSTGRES] select empty [case] clauses.  Whenever [DOWN]
    occurs the action is [DOWN], wherever [UP] occurs as well; whenever
    [MYSQL] occurs the database is [MYSQL], wherever [POSTGRES] occurs as
    well; and [UP] or [POSTGRES] can be dropped from any position without
    changing the result, exactly as a token that is not recognized. *)
Theorem parseOptions_up_and_postgres_inert :
  (forall options, In DOWN options -> In UP options ->
     Action (parseOptions options) = DOWN)
  /\ (forall options, In MYSQL options -> In POSTGRES options ->
     Database (parseOptions options) = MYSQL)
  /\ (forall pre post,
     parseOptions (pre ++ UP :: post) = parseOptions (pre ++ post)
     /\ parseOptions (pre ++ POSTGRES :: post) = parseOptions (pre ++ post)).
Proof.
  split; [|split].
  - intros options HD _. rewrite parseOptions_spec. simpl.
    apply mentions_In in HD. now rewrite HD.
  - intros options HM _. rewrite parseOptions_spec. simpl.
    apply mentions_In in HM. now rewrite HM.
  - intros pre post. split; apply parseOptions_skip; discriminate.
Qed.

Lemma parseOptions_up_and_postgres_inert_witness :
  Action (parseOptions [DOWN; UP]) = DOWN
  /\ Action (parseOptions [UP; DOWN]) = DOWN
  /\ Database (parseOptions [MYSQL; POSTGRES]) = MYSQL
  /\ Database (parseOptions [POSTGRES; MYSQL]) = MYSQL.
Proof.
  destruct parseOptions_up_and_postgres_inert as (HA & HD & _).
  repeat split; first [apply HA | apply HD]; simpl; auto.
Defined.

(** ** Registry *)

Lemma versionAlreadyRegistered_In ms v :
  versionAlreadyRegistered ms v = true <-> In v (map Version ms).
Proof.
  induction ms as [|m rest IH]; simpl.
  - split; [discriminate | contradiction].
  - destruct (Z.eqb_spec (Version m) v) as [E|N].
    + split; auto.
    + rewrite IH. split; [now right | now intros [E|H]].
Qed.

Lemma versionAlreadyRegistered_fresh ms v :
  ~ In v (map Version ms) -> versionAlreadyRegistered ms v = false.
Proof.
  intros H. destruct (versionAlreadyRegistered ms v) eqn:E; [|reflexivity].
  apply versionAlreadyRegistered_In in E. contradiction.
Qed.

Lemma Register_fresh ms v up down :
  ~ In v (map Version ms) ->
  Register ms v up down = (ms ++ [mkMigration v up down], None).
Proof.
  intros H. unfold Register. now rewrite versionAlreadyRegistered_fresh.
Qed.

(** [Register] keeps the versions of the registry pairwise distinct. *)
Lemma Register_NoDup ms v up down :
  NoDup (map Version ms) ->
  NoDup (map Version (fst (Register ms v up down))).
Proof.
  intros ND. unfold Register.
  destruct (versionAlreadyRegistered ms v) eqn:E; simpl; [assumption|].
  rewrite map_app. simpl. apply NoDup_app; [assumption | | ].
  - constructor; [intros [] | constructor].
  - intros x Hx [<-|[]].
    apply versionAlreadyRegistered_In in Hx. congruence.
Qed.

Lemma RegisterAll_distinct calls : forall ms,
  NoDup (map Version ms ++ map call_version calls) ->
  RegisterAll ms calls =
  (ms ++ map call_migration calls, repeat None (List.length calls)).
Proof.
  induction calls as [|[[v u] d] rest IH]; intros ms ND; simpl.
  - now rewrite app_nil_r.
  - simpl in ND. pose proof (NoDup_remove_2 _ _ _ ND) as Hfresh.
    rewrite Register_fresh by (intros H; apply Hfresh, in_or_app; now left).
    rewrite IH.
    + now rewrite <- app_assoc.
    + rewrite map_app, <- app_assoc. exact ND.
Qed.

(** C8: starting from the empty registry, a sequence of [Register] calls
    with pairwise distinct versions returns no error at all and leaves a
    registry that holds exactly the registered migrations in call order,
    hence as many entries as calls; and on any registry a call whose
    version is already present returns [errVersionAlreadyRegistered] and
    leaves the registry as it was. *)
Theorem Register_distinct_and_duplicate :
  (forall calls, NoDup (map call_version calls) ->
     Forall (fun e => e = None) (snd (RegisterAll [] calls))
     /\ List.length (fst (RegisterAll [] calls)) = List.length calls
     /\ fst (RegisterAll [] calls) = map call_migration calls)
  /\ (forall ms v up down, In v (map Version ms) ->
     Register ms v up down = (ms, Some errVersionAlreadyRegistered)).
Proof.
  split.
  - intros calls ND. rewrite RegisterAll_distinct by exact ND. simpl.
    split; [|split].
    + apply Forall_forall. intros e He. now apply repeat_spec in He.
    + apply length_map.
    + reflexivity.
  - intros ms v up down Hin. unfold Register.
    apply versionAlreadyRegistered_In in Hin. now rewrite Hin.
Qed.

Lemma Register_distinct_and_duplicate_witness :
  List.length (fst (RegisterAll [] [(3, None, None); (1, Some noop, None)])) = 2%nat
  /\ Register [mkMigration 1 None None] 1 (Some noop) (Some noop) =
     ([mkMigration 1 None None], Some errVersionAlreadyRegistered).
Proof.
  destruct Register_distinct_and_duplicate as [Hseq Hdup]. split.
  - apply (Hseq [(3, None, None); (1, Some noop, None)]). simpl.
    repeat constructor; simpl; intuition discriminate.
  - apply Hdup. simpl. now left.
Defined.

(** ** Dispatch *)

(** C7: for every action outside [{UP, DOWN}] the dispatch fails with
    [errUnrecognizedAction] and touches nothing, but the version it returns
    is the zero value of the named result, [0], whatever the input current
    version; it equals the input only when the input is [0]. *)
Theorem runMigrations_unrecognized_action :
  forall ms config oldVersion db,
    Action config <> UP -> Action config <> DOWN ->
    runMigrations ms config oldVersion db =
    ((0, Some errUnrecognizedAction), db).
Proof.
  intros ms config oldVersion db nU nD. unfold runMigrations.
  apply String.eqb_neq in nU, nD. now rewrite nU, nD.
Qed.

Lemma runMigrations_unrecognized_action_witness :
  runMigrations [] (mkConfig "foo"%string POSTGRES) 3 (mkDB None [] []) =
  ((0, Some errUnrecognizedAction), mkDB None [] []).
Proof.
  apply runMigrations_unrecognized_action; discriminate.
Defined.

(** ** Sorting the registry *)

Lemma insert_byVersion_perm m ms : Permutation (m :: ms) (insert_byVersion m ms).
Proof.
  induction ms as [|x xs IH]; simpl.
  - apply Permutation_refl.
  - destruct (Less x m).
    + eapply perm_trans; [apply perm_swap | now apply perm_skip].
    + apply Permutation_refl.
Qed.

Lemma sort_byVersion_perm ms : Permutation ms (sort_byVersion ms).
Proof.
  induction ms as [|m rest IH]; simpl.
  - apply perm_nil.
  - eapply perm_trans; [apply perm_skip, IH | apply insert_byVersion_perm].
Qed.

Lemma sort_byVersion_In ms m : In m (sort_byVersion ms) <-> In m ms.
Proof.
  split; apply Permutation_in;
    [apply Permutation_sym|]; apply sort_byVersion_perm.
Qed.

Lemma insert_byVersion_sorted m ms :
  StronglySorted version_le ms ->
  StronglySorted version_le (insert_byVersion m ms).
Proof.
  induction 1 as [|x xs Hs IH Hx]; simpl.
  - repeat constructor.
  - unfold Less. destruct (Z.ltb_spec (Version x) (Version m)) as [Hlt|Hge].
    + constructor; [exact IH|].
      apply Forall_forall. intros y Hy.
      apply (Permutation_in _ (Permutation_sym (insert_byVersion_perm m xs))) in Hy.
      destruct Hy as [<-|Hy].
      * unfold version_le. lia.
      * rewrite Forall_forall in Hx. now apply Hx.
    + constructor; [now constructor|].
      constructor; [exact Hge|].
      rewrite Forall_forall in Hx |- *. intros y Hy.
      specialize (Hx y Hy). unfold version_le in *. lia.
Qed.

Lemma sort_byVersion_sorted ms : StronglySorted version_le (sort_byVersion ms).
Proof.
  induction ms as [|m rest IH]; simpl.
  - constructor.
  - now apply insert_byVersion_sorted.
Qed.

Lemma sort_byVersion_NoDup ms :
  NoDup (map Version ms) -> NoDup (map Version (sort_byVersion ms)).
Proof.
  apply Permutation_NoDup, Permutation_map, sort_byVersion_perm.
Qed.

Lemma sort_byVersion_cons m rest :
  exists m' rest', sort_byVersion (m :: rest) = m' :: rest'.
Proof.
  simpl. destruct (sort_byVersion rest) as [|x xs]; simpl.
  - now exists m, [].
  - destruct (Less x m); eauto.
Qed.

Lemma sorted_app_before (l1 l2 : list migration) x :
  StronglySorted version_le (l1 ++ x :: l2) ->
  forall y, In y l1 -> version_le y x.
Proof.
  induction l1 as [|a l1 IH]; simpl; intros Hs y Hy.
  - contradiction.
  - inversion Hs as [|? ? Hs' Ha]; subst. destruct Hy as [<-|Hy].
    + rewrite Forall_forall in Ha. apply Ha, in_or_app. right. now left.
    + now apply IH.
Qed.

Lemma NoDup_map_inj {A B : Type} (f : A -> B) (l : list A) x y :
  NoDup (map f l) -> In x l -> In y l -> f x = f y -> x = y.
Proof.
  induction l as [|a l IH]; simpl; intros ND Hx Hy E.
  - contradiction.
  - inversion ND as [|? ? Hnot ND']; subst.
    destruct Hx as [<-|Hx], Hy as [<-|Hy].
    + reflexivity.
    + exfalso. apply Hnot. rewrite E. now apply in_map.
    + exfalso. apply Hnot. rewrite <- E. now apply in_map.
    + now apply IH.
Qed.

(** ** The backward scan *)

Lemma find_all_false {A : Type} (p : A -> bool) (l : list A) :
  (forall x, In x l -> p x = false) -> find p l = None.
Proof.
  induction l as [|a l IH]; simpl; intros H.
  - reflexivity.
  - rewrite (H a) by now left. apply IH. intros x Hx. apply H. now right.
Qed.

Lemma find_rev_split {A : Type} (p : A -> bool) (l : list A) x :
  find p (rev l) = Some x ->
  exists l1 l2, l = l1 ++ x :: l2 /\ p x = true
                /\ forall y, In y l2 -> p y = false.
Proof.
  induction l as [|a l IH] using rev_ind; simpl.
  - discriminate.
  - rewrite rev_app_distr. simpl. destruct (p a) eqn:Pa.
    + intros [= <-]. exists l, []. repeat split; auto. intros y [].
    + intros H. destruct (IH H) as (l1 & l2 & -> & Px & Hl2).
      exists l1, (l2 ++ [a]). rewrite <- app_assoc. repeat split; auto.
      intros y Hy. apply in_app_or in Hy as [Hy|[<-|[]]]; auto.
Qed.

Lemma findPrevious_none ms oldVersion :
  (forall m, In m ms -> oldVersion < Version m) ->
  findPrevious ms oldVersion = None.
Proof.
  intros H. unfold findPrevious. apply find_all_false.
  intros m Hm. apply in_rev in Hm. apply H in Hm. apply Z.leb_gt. exact Hm.
Qed.

(** On a sorted registry without duplicate versions the scan returns the
    migration of greatest version not above [oldVersion]. *)
Lemma findPrevious_greatest ms oldVersion m :
  StronglySorted version_le ms ->
  NoDup (map Version ms) ->
  In m ms -> Version m <= oldVersion ->
  (forall m', In m' ms -> Version m' <= oldVersion -> Version m' <= Version m) ->
  findPrevious ms oldVersion = Some m.
Proof.
  intros Hs ND Hin Hle Hmax. unfold findPrevious.
  destruct (find _ (rev ms)) as [x|] eqn:F.
  - destruct (find_rev_split _ _ _ F) as (l1 & l2 & E & Px & Hl2).
    apply Z.leb_le in Px. f_equal.
    assert (Hx : In x ms) by (rewrite E; apply in_or_app; right; now left).
    apply (NoDup_map_inj Version ms); auto.
    apply Z.le_antisymm; [now apply Hmax|].
    rewrite E in Hin. apply in_app_or in Hin as [H1|[<-|H2]].
    + rewrite E in Hs. exact (sorted_app_before _ _ _ Hs _ H1).
    + lia.
    + apply Hl2 in H2. apply Z.leb_gt in H2. lia.
  - exfalso. assert (Hr : In m (rev ms)) by now apply -> in_rev.
    apply (find_none _ _ F) in Hr. apply Z.leb_gt in Hr. lia.
Qed.

(** ** The bookkeeping store *)

Lemma latest_In rs : forall r, latest rs = Some r -> In r rs.
Proof.
  induction rs as [|a rs IH]; simpl; intros r H.
  - discriminate.
  - destruct (latest rs) as [r'|].
    + destruct (row_id a <? row_id r'); injection H as <-; auto.
    + injection H as <-. now left.
Qed.

Lemma latest_max rs : forall r, latest rs = Some r ->
  forall x, In x rs -> row_id x <= row_id r.
Proof.
  induction rs as [|a rs IH]; simpl; intros r H x Hx.
  - contradiction.
  - destruct (latest rs) as [r'|] eqn:L.
    + specialize (IH r' eq_refl).
      destruct (Z.ltb_spec (row_id a) (row_id r')); injection H as <-;
        destruct Hx as [<-|Hx]; try lia; specialize (IH x Hx); lia.
    + injection H as <-. destruct Hx as [<-|Hx]; [lia|].
      destruct rs as [|b rs]; [contradiction|]. simpl in L.
      destruct (latest rs) as [r''|]; [destruct (row_id b <? row_id r'')|];
        discriminate L.
Qed.

(** [latest] is the row the query asks for: the one whose id is above
    every other id. *)
Lemma latest_greatest rs r :
  In r rs -> (forall x, In x rs -> x = r \/ row_id x < row_id r) ->
  latest rs = Some r.
Proof.
  induction rs as [|a rs IH]; simpl; intros Hin Hmax.
  - contradiction.
  - destruct (latest rs) as [r'|] eqn:L.
    + pose proof (latest_In _ _ L) as Hr'.
      destruct (Hmax r' (or_intror Hr')) as [->|Hlt].
      * destruct (Hmax a (or_introl eq_refl)) as [->|Ha].
        -- now rewrite Z.ltb_irrefl.
        -- apply Z.ltb_lt in Ha. now rewrite Ha.
      * destruct Hin as [->|Hin].
        -- destruct (Z.ltb_spec (row_id r) (row_id r')); [lia | reflexivity].
        -- pose proof (latest_max _ _ L _ Hin). lia.
    + destruct Hin as [->|Hin]; [reflexivity|].
      destruct rs as [|b rs]; [contradiction|]. simpl in L.
      destruct (latest rs) as [r''|]; [destruct (row_id b <? row_id r'')|];
        discriminate L.
Qed.

Lemma latest_snoc rs r :
  Forall (fun x => row_id x < row_id r) rs -> latest (rs ++ [r]) = Some r.
Proof.
  intros H. apply latest_greatest.
  - apply in_or_app. right. now left.
  - intros x Hx. apply in_app_or in Hx as [Hx|[<-|[]]]; [right | now left].
    rewrite Forall_forall in H. now apply H.
Qed.

Lemma insert_row_wf v b t : wf_table t -> wf_table (insert_row v b t).
Proof.
  unfold wf_table, insert_row. simpl. intros H. apply Forall_app. split.
  - eapply Forall_impl; [|exact H]. simpl. intros; lia.
  - constructor; [simpl; lia | constructor].
Qed.

Lemma latest_insert_row v b t :
  wf_table t -> latest (rows (insert_row v b t)) = Some (mkRow (next_id t) v b).
Proof. intros H. unfold insert_row. simpl. now apply latest_snoc. Qed.

(** *** A driver that answers every call *)

Lemma roundtrip_ok db : faults db = [] -> roundtrip db = (None, db).
Proof. unfold roundtrip. now intros ->. Qed.

Lemma createTable_ok config db :
  recognized_dialect config -> faults db = [] ->
  createTable config db =
  (None, match history db with
         | Some _ => db
         | None => with_history (Some empty_table) db
         end).
Proof.
  intros Hd Hf. unfold createTable, exec_create_table, bind.
  destruct Hd as [-> | ->]; simpl; rewrite (roundtrip_ok _ Hf);
    now destruct (history db).
Qed.

Lemma setVersion_ok config v b db t :
  recognized_dialect config -> faults db = [] -> history db = Some t ->
  setVersion config v b db =
  (None, with_history (Some (insert_row v b t)) db).
Proof.
  intros Hd Hf Ht. unfold setVersion, prepare_insert, stmt_exec, bind.
  destruct Hd as [-> | ->]; simpl;
    rewrite (roundtrip_ok _ Hf), Ht; simpl;
    now rewrite (roundtrip_ok _ Hf), Ht.
Qed.

Lemma getVersion_ok db t :
  faults db = [] -> history db = Some t ->
  getVersion db =
  (match latest (rows t) with
   | None => (0, None)
   | Some r => (row_version r,
                if row_running r then Some errMigrationAlreadyRunning else None)
   end, db).
Proof.
  intros Hf Ht. unfold getVersion, query_latest, bind.
  rewrite (roundtrip_ok _ Hf), Ht.
  destruct (latest (rows t)) as [r|]; simpl; [|reflexivity].
  now destruct (row_running r).
Qed.

(** *** Any driver *)

Lemma roundtrip_inv db e db' :
  roundtrip db = (e, db') ->
  history db' = history db /\ relations db' = relations db
  /\ incl (faults db') (faults db)
  /\ (e = None \/ exists msg, e = Some (ErrDriver msg) /\ In (Some msg) (faults db)).
Proof.
  unfold roundtrip. destruct (faults db) as [|[msg|] fs] eqn:F;
    intros [= <- <-]; simpl; rewrite ?F; repeat split;
    try (apply incl_refl); try (apply incl_tl, incl_refl); auto.
  right. exists msg. split; [reflexivity | now left].
Qed.

(** A successful [setVersion] appends exactly one row and nothing else. *)
Lemma setVersion_inv config v b db db' :
  setVersion config v b db = (None, db') ->
  exists t, history db = Some t
            /\ history db' = Some (insert_row v b t)
            /\ relations db' = relations db.
Proof.
  unfold setVersion, prepare_insert, stmt_exec, bind.
  destruct (_ || _); [|discriminate].
  destruct (roundtrip db) as [[e|] db1] eqn:R1; [discriminate|].
  apply roundtrip_inv in R1 as (H1 & L1 & _).
  destruct (history db1) as [t|] eqn:Ht; [|discriminate].
  destruct (roundtrip db1) as [[e|] db2] eqn:R2; [discriminate|].
  apply roundtrip_inv in R2 as (H2 & L2 & _).
  rewrite H2, Ht. intros [= <-]. exists t. simpl.
  repeat split; congruence.
Qed.

(** A failed [setVersion] leaves the data as it was. *)
Lemma setVersion_failed config v b db e db' :
  setVersion config v b db = (Some e, db') ->
  history db' = history db /\ relations db' = relations db.
Proof.
  unfold setVersion, prepare_insert, stmt_exec, bind.
  destruct (_ || _); [|now intros [= <- <-]].
  destruct (roundtrip db) as [[e1|] db1] eqn:R1;
    apply roundtrip_inv in R1 as (H1 & L1 & _).
  { intros [= <- <-]. split; congruence. }
  destruct (history db1) as [t|] eqn:Ht;
    [|intros [= <- <-]; split; congruence].
  destruct (roundtrip db1) as [[e2|] db2] eqn:R2;
    apply roundtrip_inv in R2 as (H2 & L2 & _).
  - intros [= <- <-]. split; congruence.
  - rewrite H2, Ht. discriminate.
Qed.

Lemma createTable_existing config db t e db' :
  recognized_dialect config -> history db = Some t ->
  createTable config db = (e, db') ->
  history db' = Some t /\ relations db' = relations db
  /\ incl (faults db') (faults db)
  /\ (e = None
      \/ exists msg, e = Some (ErrDriver msg) /\ In (Some msg) (faults db)).
Proof.
  intros Hd Ht. unfold createTable.
  assert (Hexec : exec_create_table db = (e, db') ->
    history db' = Some t /\ relations db' = relations db
    /\ incl (faults db') (faults db)
    /\ (e = None
        \/ exists msg, e = Some (ErrDriver msg) /\ In (Some msg) (faults db))).
  { unfold exec_create_table, bind.
    destruct (roundtrip db) as [[e1|] db1] eqn:R;
      apply roundtrip_inv in R as (H1 & L1 & I1 & D1).
    - intros [= <- <-]. repeat split; try congruence; auto.
    - rewrite H1, Ht. intros [= <- <-]. repeat split; try congruence; auto. }
  destruct Hd as [-> | ->]; simpl; exact Hexec.
Qed.

Lemma getVersion_running db t r db1 :
  history db = Some t -> latest (rows t) = Some r -> row_running r = true ->
  roundtrip db = (None, db1) ->
  getVersion db = ((row_version r, Some errMigrationAlreadyRunning), db1).
Proof.
  intros Ht Hl Hr R. unfold getVersion, query_latest, bind. rewrite R.
  apply roundtrip_inv in R as (H1 & _). rewrite H1, Ht, Hl. simpl.
  now rewrite Hr.
Qed.

Lemma getVersion_fault db e db1 :
  roundtrip db = (Some e, db1) -> getVersion db = ((0, Some e), db1).
Proof.
  intros R. unfold getVersion, query_latest, bind. rewrite R. simpl.
  apply roundtrip_inv in R as (_ & _ & _ & [D | (msg & [= ->] & _)]).
  - discriminate D.
  - reflexivity.
Qed.

Ltac blocked_run :=
  split; [reflexivity | split; [congruence | split; [congruence | split]]].

(** C2: let the row of greatest id of the [migrations] relation have
    [running = true].  Then reading the current version, once the query
    reaches the server, fails with [errMigrationAlreadyRunning]; and [Run]
    on a non-empty registry returns [{false, 0, err}] with a non-nil
    [err], which is [errMigrationAlreadyRunning] unless the driver itself
    failed first, and leaves the relation and the user's relations as they
    were: no row is written and no handler runs, whatever the registry and
    the options.  ([Run] on the empty registry returns before it reads
    anything and does not touch the database either.) *)
Theorem getVersion_detects_interrupted_run :
  forall db t r,
    history db = Some t ->
    In r (rows t) ->
    (forall x, In x (rows t) -> x = r \/ row_id x < row_id r) ->
    row_running r = true ->
    (forall db1, roundtrip db = (None, db1) ->
       getVersion db = ((row_version r, Some errMigrationAlreadyRunning), db1))
    /\ (forall ms options, ms <> [] ->
       exists e db',
         Run ms options db =
           ((sort_byVersion ms, mkResult false 0 (Some e)), db')
         /\ history db' = history db /\ relations db' = relations db
         /\ (e = errMigrationAlreadyRunning
             \/ exists msg, e = ErrDriver msg /\ In (Some msg) (faults db))
         /\ (faults db = [] -> e = errMigrationAlreadyRunning /\ db' = db))
    /\ (forall options, Run [] options db = (([], mkResult false 0 None), db)).
Proof.
  intros db t r Ht Hin Hmax Hrun.
  pose proof (latest_greatest _ _ Hin Hmax) as Hl.
  split; [|split].
  - intros db1 R. now apply (getVersion_running db t r).
  - intros [|m rest] options Hne; [contradiction|].
    unfold Run, bind.
    destruct (createTable (parseOptions options) db) as [e0 db0] eqn:C.
    pose proof (createTable_existing _ _ _ _ _
                  (parseOptions_dialect options) Ht C) as (H0 & L0 & I0 & D0).
    destruct e0 as [e0|].
    { destruct D0 as [D0 | (msg & [= ->] & Hmsg)]; [discriminate|].
      exists (ErrDriver msg), db0. blocked_run.
      - right. now exists msg.
      - intros F. rewrite F in Hmsg. contradiction. }
    destruct (roundtrip db0) as [[e1|] db1] eqn:R.
    + rewrite (getVersion_fault _ _ _ R).
      apply roundtrip_inv in R as (H1 & L1 & I1 & [D1 | (msg & [= ->] & Hmsg)]);
        [discriminate|].
      exists (ErrDriver msg), db1. blocked_run.
      * right. exists msg. split; [reflexivity | now apply I0].
      * intros F. apply I0 in Hmsg. rewrite F in Hmsg. contradiction.
    + rewrite (getVersion_running db0 t r db1 H0 Hl Hrun R).
      pose proof R as R'. apply roundtrip_inv in R' as (H1 & L1 & _).
      exists errMigrationAlreadyRunning, db1. blocked_run.
      * now left.
      * intros F. split; [reflexivity|].
        assert (E0 : db0 = db).
        { rewrite (createTable_ok _ _ (parseOptions_dialect options) F), Ht in C.
          congruence. }
        subst db0. rewrite (roundtrip_ok _ F) in R. congruence.
  - reflexivity.
Qed.

Lemma getVersion_detects_interrupted_run_witness :
  let t := mkTable 3 [mkRow 2 1 true; mkRow 1 0 false] in
  let db := mkDB (Some t) [] [] in
  getVersion db = ((1, Some errMigrationAlreadyRunning), db)
  /\ exists e db',
       Run [mkMigration 1 (Some noop) (Some noop)] [UP] db =
         (([mkMigration 1 (Some noop) (Some noop)], mkResult false 0 (Some e)), db')
       /\ e = errMigrationAlreadyRunning /\ db' = db.
Proof.
  intros t db.
  destruct (getVersion_detects_interrupted_run db t (mkRow 2 1 true))
    as (Hread & Hrun & _).
  - reflexivity.
  - simpl. now left.
  - simpl. intros x [<-|[<-|[]]]; [now left | right; simpl; lia].
  - reflexivity.
  - split.
    + apply Hread. reflexivity.
    + destruct (Hrun [mkMigration 1 (Some noop) (Some noop)] [UP])
        as (e & db' & HR & _ & _ & _ & Hh); [discriminate|].
      exists e, db'. split; [exact HR | now apply Hh].
Defined.

(** ** The forward loop *)

Lemma pending_spec oldVersion m :
  pending oldVersion m = true <-> oldVersion < Version m /\ Up m <> None.
Proof.
  unfold pending. rewrite negb_true_iff, orb_false_iff, Z.leb_gt.
  destruct (Up m); simpl; intuition congruence.
Qed.

Lemma runUp_loop_skip config oldVersion newVersion m rest :
  pending oldVersion m = false ->
  runUp_loop config oldVersion newVersion (m :: rest) =
  runUp_loop config oldVersion newVersion rest.
Proof.
  unfold pending. rewrite negb_false_iff. simpl. now intros ->.
Qed.

Lemma runUp_loop_step config oldVersion newVersion m up rest db :
  pending oldVersion m = true -> Up m = Some up ->
  runUp_loop config oldVersion newVersion (m :: rest) db =
  match applyUp config m up db with
  | (Some e, db1) => ((newVersion, Some e), db1)
  | (None, db1) => runUp_loop config oldVersion (Version m) rest db1
  end.
Proof.
  unfold pending. rewrite negb_true_iff. simpl. intros -> ->. unfold bind.
  now destruct (applyUp config m up db) as [[e|] db1].
Qed.

Lemma runUp_loop_filter config oldVersion ms : forall newVersion db,
  runUp_loop config oldVersion newVersion ms db =
  runUp_loop config oldVersion newVersion (filter (pending oldVersion) ms) db.
Proof.
  induction ms as [|m rest IH]; intros newVersion db; [reflexivity|].
  cbn [filter]. destruct (pending oldVersion m) eqn:P.
  - destruct (proj1 (pending_spec _ _) P) as [_ Hup].
    destruct (Up m) as [up|] eqn:U; [|congruence].
    rewrite !(runUp_loop_step _ _ _ _ up) by assumption.
    destruct (applyUp config m up db) as [[e|] db1]; [reflexivity | apply IH].
  - rewrite runUp_loop_skip by assumption. apply IH.
Qed.

Lemma runUp_loop_app config oldVersion pre post : forall newVersion db v db1,
  runUp_loop config oldVersion newVersion pre db = ((v, None), db1) ->
  runUp_loop config oldVersion newVersion (pre ++ post) db =
  runUp_loop config oldVersion v post db1.
Proof.
  induction pre as [|m rest IH]; intros newVersion db v db1 H.
  - simpl in H. now injection H as <- <-.
  - rewrite <- app_comm_cons. destruct (pending oldVersion m) eqn:P.
    + destruct (proj1 (pending_spec _ _) P) as [_ Hup].
      destruct (Up m) as [up|] eqn:U; [|congruence].
      rewrite (runUp_loop_step _ _ _ _ up) in H |- * by assumption.
      destruct (applyUp config m up db) as [[e|] db2]; [discriminate H|].
      now apply IH.
    + rewrite runUp_loop_skip in H |- * by assumption. now apply IH.
Qed.

Lemma last_cons_any {A : Type} (l : list A) : forall a d d',
  last (a :: l) d = last (a :: l) d'.
Proof.
  induction l as [|b l IH]; intros a d d'; [reflexivity|].
  change (last (b :: l) d = last (b :: l) d'). apply IH.
Qed.

Lemma last_cons_shift {A : Type} (l : list A) a d :
  last (a :: l) d = last l a.
Proof.
  destruct l as [|b l]; [reflexivity|].
  change (last (b :: l) d = last (b :: l) a). apply last_cons_any.
Qed.

(** When the loop runs to its end the result is the version of the last
    migration it did not skip. *)
Lemma runUp_loop_complete config oldVersion ms : forall newVersion db v db',
  runUp_loop config oldVersion newVersion ms db = ((v, None), db') ->
  v = last (map Version (filter (pending oldVersion) ms)) newVersion.
Proof.
  induction ms as [|m rest IH]; intros newVersion db v db' H.
  - simpl in H. now injection H as <- _.
  - cbn [filter]. destruct (pending oldVersion m) eqn:P.
    + destruct (proj1 (pending_spec _ _) P) as [_ Hup].
      destruct (Up m) as [up|] eqn:U; [|congruence].
      rewrite (runUp_loop_step _ _ _ _ up) in H by assumption.
      destruct (applyUp config m up db) as [[e|] db1]; [discriminate H|].
      cbn [map]. rewrite last_cons_shift. now apply IH in H.
    + rewrite runUp_loop_skip in H by assumption. now apply IH in H.
Qed.

Lemma sorted_last_greatest (l : list migration) : forall d,
  StronglySorted version_le l ->
  forall m, In m l -> Version m <= last (map Version l) d.
Proof.
  induction l as [|a l IH]; intros d Hs m Hm; [contradiction|].
  inversion Hs as [|? ? Hs' Ha]; subst. cbn [map].
  rewrite last_cons_shift. destruct l as [|b l].
  - destruct Hm as [<-|[]]. simpl. lia.
  - assert (Hb : Version b <= last (map Version (b :: l)) (Version a))
      by (apply IH; [assumption | now left]).
    destruct Hm as [<-|Hm].
    + rewrite Forall_forall in Ha. specialize (Ha b (or_introl eq_refl)).
      unfold version_le in Ha. lia.
    + now apply IH.
Qed.

Lemma last_map_In (l : list migration) : forall d,
  l <> [] -> exists m, In m l /\ Version m = last (map Version l) d.
Proof.
  induction l as [|a l IH]; intros d Hne; [contradiction|].
  cbn [map]. rewrite last_cons_shift. destruct l as [|b l].
  - exists a. split; [now left | reflexivity].
  - destruct (IH (Version a)) as (m & Hm & E); [discriminate|].
    exists m. split; [now right | exact E].
Qed.

Lemma filter_sorted (p : migration -> bool) (l : list migration) :
  StronglySorted version_le l -> StronglySorted version_le (filter p l).
Proof.
  induction 1 as [|a l Hs IH Ha]; simpl; [constructor|].
  destruct (p a); [|exact IH]. constructor; [exact IH|].
  rewrite Forall_forall in Ha |- *. intros x Hx.
  apply filter_In in Hx as [Hx _]. now apply Ha.
Qed.

(** What a completed [applyUp] wrote: the row [(version, true)], then
    whatever the handler did, then the row [(version, false)]. *)
Lemma applyUp_ok_inv config m up db db' :
  applyUp config m up db = (None, db') ->
  exists t1 db1 db2 t2,
    history db = Some t1
    /\ history db1 = Some (insert_row (Version m) true t1)
    /\ relations db1 = relations db
    /\ up db1 = (None, db2)
    /\ history db2 = Some t2
    /\ history db' = Some (insert_row (Version m) false t2)
    /\ relations db' = relations db2.
Proof.
  unfold applyUp, bind.
  destruct (setVersion config (Version m) true db) as [[e|] db1] eqn:S1;
    [discriminate|].
  destruct (up db1) as [[e|] db2] eqn:U; [discriminate|].
  intros S2.
  apply setVersion_inv in S1 as (t1 & H1 & H1' & R1).
  apply setVersion_inv in S2 as (t2 & H2 & H2' & R2).
  exists t1, db1, db2, t2. repeat split; assumption.
Qed.

(** ** [Run] after its prologue *)

Lemma with_history_same db t :
  history db = Some t -> with_history (Some t) db = db.
Proof. destruct db as [h rel fs]. simpl. now intros ->. Qed.

Lemma createTable_healthy config db :
  recognized_dialect config -> faults db = [] ->
  createTable config db = (None, with_history (Some (the_table db)) db).
Proof.
  intros Hd Hf. rewrite createTable_ok by assumption. unfold the_table.
  destruct (history db) as [t|] eqn:Ht; [|reflexivity].
  now rewrite with_history_same.
Qed.

Lemma getVersion_settled db t v :
  faults db = [] -> history db = Some t ->
  match latest (rows t) with
  | None => v = 0
  | Some r => row_version r = v /\ row_running r = false
  end ->
  getVersion db = ((v, None), db).
Proof.
  intros Hf Ht Hv. rewrite (getVersion_ok db t Hf Ht).
  destruct (latest (rows t)) as [r|].
  - destruct Hv as [-> ->]. reflexivity.
  - now subst v.
Qed.

Lemma Run_after_prologue ms options db db0 oldVersion db1 :
  ms <> [] ->
  createTable (parseOptions options) db = (None, db0) ->
  getVersion db0 = ((oldVersion, None), db1) ->
  Run ms options db =
  match runMigrations (sort_byVersion ms) (parseOptions options) oldVersion db1 with
  | ((v, e), db2) =>
      ((sort_byVersion ms, mkResult (negb (oldVersion =? v)) v e), db2)
  end.
Proof.
  intros Hne C G. destruct ms as [|m rest]; [contradiction|].
  unfold Run, bind. rewrite C, G.
  now destruct (runMigrations _ _ _ db1) as [[v e] db2].
Qed.

Lemma runMigrations_up ms config :
  Action config = UP -> runMigrations ms config = runUp ms config.
Proof. unfold runMigrations. now intros ->. Qed.

Lemma runMigrations_down ms config :
  Action config = DOWN -> runMigrations ms config = runDown ms config.
Proof. unfold runMigrations. now intros ->. Qed.

Lemma parseOptions_up options :
  ~ In DOWN options -> Action (parseOptions options) = UP.
Proof.
  intros H. rewrite parseOptions_spec. simpl.
  destruct (mentions DOWN options) eqn:E; [|reflexivity].
  apply mentions_In in E. contradiction.
Qed.

Lemma parseOptions_down options :
  In DOWN options -> Action (parseOptions options) = DOWN.
Proof.
  intros H. rewrite parseOptions_spec. simpl.
  apply mentions_In in H. now rewrite H.
Qed.

Lemma applyUp_noop_healthy config m db t :
  recognized_dialect config -> faults db = [] -> history db = Some t ->
  applyUp config m noop db =
  (None, with_history
           (Some (insert_row (Version m) false (insert_row (Version m) true t)))
           db).
Proof.
  intros Hd Hf Ht. unfold applyUp, bind.
  rewrite (setVersion_ok _ _ _ _ t) by assumption. unfold noop.
  now rewrite (setVersion_ok _ _ _ _ (insert_row (Version m) true t)).
Qed.

Lemma applyUp_failing_healthy config m msg db t :
  recognized_dialect config -> faults db = [] -> history db = Some t ->
  applyUp config m (failing msg) db =
  (Some (ErrUser msg),
   with_history (Some (insert_row (Version m) true t)) db).
Proof.
  intros Hd Hf Ht. unfold applyUp, bind.
  now rewrite (setVersion_ok _ _ _ _ t) by assumption.
Qed.

Lemma sort_byVersion_nonempty ms pre m post :
  sort_byVersion ms = pre ++ m :: post -> ms <> [].
Proof. intros H ->. simpl in H. now destruct pre. Qed.

(** The three ways an attempt can fail: the first version-record write,
    the up procedure, the second version-record write. *)
Lemma applyUp_failed_inv config m up db e db' :
  applyUp config m up db = (Some e, db') ->
  setVersion config (Version m) true db = (Some e, db')
  \/ (exists db1,
        setVersion config (Version m) true db = (None, db1)
        /\ up db1 = (Some e, db'))
  \/ (exists db1 db2,
        setVersion config (Version m) true db = (None, db1)
        /\ up db1 = (None, db2)
        /\ setVersion config (Version m) false db2 = (Some e, db')).
Proof.
  unfold applyUp, bind.
  destruct (setVersion config (Version m) true db) as [[e1|] db1].
  - intros [= <- <-]. now left.
  - destruct (up db1) as [[e2|] db2] eqn:U.
    + intros [= <- <-]. right. left. now exists db1.
    + intros S2. right. right. now exists db1, db2.
Qed.

(** C1: [Run] with action [UP].  Let the sorted registry be
    [pre ++ m :: post], let everything pending in [pre] have been applied,
    ending at version [v], and let the attempt on the pending migration [m]
    fail with [e], at either of its two version-record writes or in its up
    procedure.  Then [Run] stops there: nothing of [post] is looked at, the
    result is [{oldVersion <> v, v, e}] where [v] is the version of the last
    migration applied before [m] (the current version when there is none),
    and the database is left as the failed attempt left it, with what
    [pre] committed still in place.  In particular, with versions 1 and 2
    registered in either order, a database at version 0, a version 1 whose
    up procedure succeeds and a version 2 whose up procedure fails, the
    result is [{true, 1, that error}], the two rows of version 1 are
    recorded and version 2 is left with its [running = true] row only. *)
Theorem Run_up_stops_at_first_failure :
  (forall ms options db db0 oldVersion db1 pre m up post v db2 e db3,
     Action (parseOptions options) = UP ->
     createTable (parseOptions options) db = (None, db0) ->
     getVersion db0 = ((oldVersion, None), db1) ->
     sort_byVersion ms = pre ++ m :: post ->
     runUp pre (parseOptions options) oldVersion db1 = ((v, None), db2) ->
     oldVersion < Version m -> Up m = Some up ->
     applyUp (parseOptions options) m up db2 = (Some e, db3) ->
     Run ms options db =
       ((sort_byVersion ms, mkResult (negb (oldVersion =? v)) v (Some e)), db3)
     /\ v = last (map Version (filter (pending oldVersion) pre)) oldVersion)
  /\ (forall db options msg down1 down2 ms,
     let m1 := mkMigration 1 (Some noop) down1 in
     let m2 := mkMigration 2 (Some (failing msg)) down2 in
     ms = [m1; m2] \/ ms = [m2; m1] ->
     faults db = [] -> settled_at db 0 -> ~ In DOWN options ->
     Run ms options db =
       (([m1; m2], mkResult true 1 (Some (ErrUser msg))),
        with_history
          (Some (insert_row 2 true
                   (insert_row 1 false (insert_row 1 true (the_table db)))))
          db)).
Proof.
  split.
  - intros ms options db db0 oldVersion db1 pre m up post v db2 e db3
           HA HC HG Hsort Hpre Hlt Hup Hfail.
    pose proof (sort_byVersion_nonempty _ _ _ _ Hsort) as Hne.
    rewrite (Run_after_prologue _ _ _ _ _ _ Hne HC HG).
    rewrite runMigrations_up by assumption. rewrite Hsort.
    unfold runUp in *. rewrite (runUp_loop_app _ _ _ _ _ _ _ _ Hpre).
    rewrite (runUp_loop_step _ _ _ _ up)
      by (try apply pending_spec; try split; congruence).
    rewrite Hfail. split; [reflexivity|].
    exact (runUp_loop_complete _ _ _ _ _ _ _ Hpre).
  - intros db options msg down1 down2 ms m1 m2 Hms Hf Hv HnD.
    assert (Hsort : sort_byVersion ms = [m1; m2])
      by (destruct Hms as [-> | ->]; reflexivity).
    assert (Hne : ms <> []) by (destruct Hms as [-> | ->]; discriminate).
    pose proof (parseOptions_dialect options) as Hd.
    set (db0 := with_history (Some (the_table db)) db).
    rewrite (Run_after_prologue ms options db db0 0 db0 Hne).
    + rewrite runMigrations_up by now apply parseOptions_up.
      rewrite Hsort. unfold runUp.
      rewrite (runUp_loop_step _ _ _ _ noop) by reflexivity.
      rewrite (applyUp_noop_healthy _ _ _ (the_table db)) by easy.
      rewrite (runUp_loop_step _ _ _ _ (failing msg)) by reflexivity.
      erewrite applyUp_failing_healthy by easy. reflexivity.
    + now apply createTable_healthy.
    + now apply (getVersion_settled db0 (the_table db)).
Qed.

Lemma Run_up_stops_at_first_failure_witness :
  let m1 := mkMigration 1 (Some noop) (Some noop) in
  let m2 := mkMigration 2 (Some (failing "Foo")) (Some noop) in
  let db' :=
    mkDB (Some (mkTable 4 [mkRow 1 1 true; mkRow 2 1 false; mkRow 3 2 true]))
         [] [] in
  Run [m2; m1] [POSTGRES; UP] (mkDB None [] []) =
    (([m1; m2], mkResult true 1 (Some (ErrUser "Foo"))), db')
  /\ Run [m1; m2] [MYSQL] (mkDB None [] []) =
    (([m1; m2], mkResult true 1 (Some (ErrUser "Foo"))), db').
Proof.
  intros m1 m2 db'.
  destruct Run_up_stops_at_first_failure as [Hgen Htest]. split.
  - apply (Hgen [m2; m1] [POSTGRES; UP] (mkDB None [] [])
             (mkDB (Some empty_table) [] []) 0
             (mkDB (Some empty_table) [] [])
             [m1] m2 (failing "Foo") [] 1
             (mkDB (Some (mkTable 3 [mkRow 1 1 true; mkRow 2 1 false])) [] [])
             (ErrUser "Foo") db');
      reflexivity.
  - apply (Htest (mkDB None [] []) [MYSQL] "Foo"%string (Some noop) (Some noop)).
    + now left.
    + reflexivity.
    + reflexivity.
    + simpl. intros [H|[]]. discriminate H.
Defined.

(** C3: with the single migration of version 1 registered, an up
    procedure that does nothing, a driver that answers and a database
    settled at version 0, [Run] with action [UP] returns [{true, 1, nil}]
    after recording [(1, true)] and [(1, false)]; run again on the database
    it left, it returns [{false, 1, nil}] and leaves that database as it
    is: nothing is pending, the new version is the current one. *)
Theorem Run_up_then_up_again :
  forall db options down,
    faults db = [] -> wf_table (the_table db) -> settled_at db 0 ->
    ~ In DOWN options ->
    let m := mkMigration 1 (Some noop) down in
    let db1 :=
      with_history
        (Some (insert_row 1 false (insert_row 1 true (the_table db)))) db in
    Run [m] options db = (([m], mkResult true 1 None), db1)
    /\ Run [m] options db1 = (([m], mkResult false 1 None), db1).
Proof.
  intros db options down Hf Hwf Hv HnD m db1.
  pose proof (parseOptions_dialect options) as Hd.
  pose proof (parseOptions_up options HnD) as HA.
  set (db0 := with_history (Some (the_table db)) db).
  assert (Hne : [m] <> []) by discriminate.
  split.
  - rewrite (Run_after_prologue [m] options db db0 0 db0 Hne).
    + rewrite runMigrations_up by assumption. simpl sort_byVersion.
      unfold runUp.
      rewrite (runUp_loop_step _ _ _ _ noop) by reflexivity.
      now rewrite (applyUp_noop_healthy _ _ _ (the_table db)) by easy.
    + now apply createTable_healthy.
    + now apply (getVersion_settled db0 (the_table db)).
  - rewrite (Run_after_prologue [m] options db1 db1 1 db1 Hne).
    + rewrite runMigrations_up by assumption. simpl sort_byVersion.
      unfold runUp. now rewrite runUp_loop_skip by reflexivity.
    + now rewrite createTable_healthy by easy.
    + apply (getVersion_settled db1
               (insert_row 1 false (insert_row 1 true (the_table db))));
        [assumption | reflexivity |].
      rewrite latest_insert_row by now apply insert_row_wf.
      now split.
Qed.

Lemma Run_up_then_up_again_witness :
  let m := mkMigration 1 (Some noop) (Some noop) in
  let db1 :=
    mkDB (Some (mkTable 3 [mkRow 1 1 true; mkRow 2 1 false])) [] [] in
  Run [m] [POSTGRES; UP] (mkDB None [] []) = (([m], mkResult true 1 None), db1)
  /\ Run [m] [POSTGRES; UP] db1 = (([m], mkResult false 1 None), db1).
Proof.
  intros m db1.
  apply (Run_up_then_up_again (mkDB None [] []) [POSTGRES; UP] (Some noop)).
  - reflexivity.
  - constructor.
  - reflexivity.
  - simpl. intros [H|[H|[]]]; discriminate H.
Defined.

(** ** The backward step *)

Lemma sub64_in_range v :
  min_int64 < v <= max_int64 -> sub64 v 1 = v - 1.
Proof.
  unfold sub64, wrap64, min_int64, max_int64. intros H.
  rewrite Z.mod_small; lia.
Qed.


Lemma runDown_not_found ms config oldVersion db :
  oldVersion <> 0 -> findPrevious ms oldVersion = None ->
  runDown ms config oldVersion db =
  ((oldVersion, Some errPreviousMigrationNotFound), db).
Proof.
  intros Hz Hf. unfold runDown. apply Z.eqb_neq in Hz. now rewrite Hz, Hf.
Qed.

Lemma runDown_step ms config oldVersion m db db1 db2 db3 :
  oldVersion <> 0 -> findPrevious ms oldVersion = Some m ->
  setVersion config (sub64 (Version m) 1) true db = (None, db1) ->
  invoke (Down m) db1 = (None, db2) ->
  setVersion config (sub64 (Version m) 1) false db2 = (None, db3) ->
  runDown ms config oldVersion db = ((sub64 (Version m) 1, None), db3).
Proof.
  intros Hz Hf S1 D S2. unfold runDown, bind. apply Z.eqb_neq in Hz.
  now rewrite Hz, Hf, S1, D, S2.
Qed.

Lemma getVersion_data db x db' :
  getVersion db = (x, db') ->
  history db' = history db /\ relations db' = relations db.
Proof.
  unfold getVersion, query_latest, bind.
  destruct (roundtrip db) as [[e|] db1] eqn:R;
    apply roundtrip_inv in R as (H1 & L1 & _ & D).
  - destruct D as [D | (msg & [= ->] & _)]; [discriminate|].
    intros [= <- <-]. now split.
  - destruct (history db1) as [t|] eqn:Ht.
    + destruct (latest (rows t)) as [r|]; simpl.
      * destruct (row_running r); intros [= <- <-]; split; congruence.
      * intros [= <- <-]. split; congruence.
    + intros [= <- <-]. split; congruence.
Qed.



(** C6 as the code has it: at a current version [v > 0], when every
    registered version is above [v], so that the scan finds no version at
    most [v], [Run] with action [DOWN] fails with
    [errPreviousMigrationNotFound], returns [{false, v, err}] and leaves
    the database as the prologue left it. *)
Theorem Run_down_previous_not_found :
  forall ms options db db0 v db1,
    ms <> [] ->
    Action (parseOptions options) = DOWN ->
    createTable (parseOptions options) db = (None, db0) ->
    getVersion db0 = ((v, None), db1) ->
    0 < v ->
    (forall m, In m ms -> v < Version m) ->
    Run ms options db =
      ((sort_byVersion ms,
        mkResult false v (Some errPreviousMigrationNotFound)), db1)
    /\ history db1 = history db0 /\ relations db1 = relations db0.
Proof.
  intros ms options db db0 v db1 Hne HA HC HG Hpos Habove.
  rewrite (Run_after_prologue _ _ _ _ _ _ Hne HC HG).
  rewrite runMigrations_down by assumption.
  rewrite runDown_not_found.
  - rewrite Z.eqb_refl. split; [reflexivity|].
    exact (getVersion_data _ _ _ HG).
  - lia.
  - apply findPrevious_none. intros m Hm. apply Habove.
    exact (proj1 (sort_byVersion_In _ _) Hm).
Qed.

Lemma Run_down_previous_not_found_witness :
  let m2 := mkMigration 2 (Some noop) (Some noop) in
  let db := mkDB (Some (mkTable 3 [mkRow 1 1 true; mkRow 2 1 false])) [] [] in
  Run [m2] [POSTGRES; DOWN] db =
    (([m2], mkResult false 1 (Some errPreviousMigrationNotFound)), db).
Proof.
  intros m2 db.
  apply (Run_down_previous_not_found [m2] [POSTGRES; DOWN] db db 1 db);
    try reflexivity.
  - discriminate.
  - simpl. intros m [<-|[]]. simpl. lia.
Defined.

(** C6 as the claim states it fails: the registry [{1}] holds no migration
    of the recorded version 2, yet [DOWN] does not fail; it runs the down
    procedure of version 1 and returns [{true, 0, nil}]. *)
Lemma Run_down_missing_version_counterexample :
  let m1 := mkMigration 1 (Some noop) (Some noop) in
  let db := mkDB (Some (mkTable 5 [mkRow 1 1 true; mkRow 2 1 false;
                                   mkRow 3 2 true; mkRow 4 2 false])) [] [] in
  0 < 2
  /\ fst (getVersion db) = (2, None)
  /\ ~ In 2 (map Version [m1])
  /\ fst (Run [m1] [POSTGRES; DOWN] db) = ([m1], mkResult true 0 None)
  /\ snd (fst (Run [m1] [POSTGRES; DOWN] db))
     <> mkResult false 2 (Some errPreviousMigrationNotFound).
Proof.
  intros m1 db. split; [lia|]. split; [reflexivity|]. split.
  - simpl. intros [H|[]]. discriminate H.
  - split; [reflexivity | discriminate].
Qed.

(** C5 as the code has it.  In [runUp], for any registry [ms]:
    a migration without up procedure can be dropped from the registry
    without changing anything, so it is skipped and nothing is recorded
    for it; once the migrations before a pending migration [m] that has an
    up procedure are done, [m] is applied -- [(m.Version, true)] is
    recorded, its up procedure runs, [(m.Version, false)] is recorded --
    and the loop goes on after [m] with [newVersion = m.Version]; and on
    full success over a sorted registry the new version is the greatest
    registered version above the current one among the migrations that
    have an up procedure, or the current version when there is none. *)
Theorem runUp_applies_pending_with_up :
  forall ms config oldVersion,
    (forall pre m post db,
       ms = pre ++ m :: post -> Up m = None ->
       runUp ms config oldVersion db = runUp (pre ++ post) config oldVersion db)
    /\ (forall pre m post up db v db1 db2,
       ms = pre ++ m :: post ->
       oldVersion < Version m -> Up m = Some up ->
       runUp pre config oldVersion db = ((v, None), db1) ->
       applyUp config m up db1 = (None, db2) ->
       runUp ms config oldVersion db =
         runUp_loop config oldVersion (Version m) post db2
       /\ exists t1 d1 d2 t2,
           history db1 = Some t1
           /\ history d1 = Some (insert_row (Version m) true t1)
           /\ up d1 = (None, d2)
           /\ history d2 = Some t2
           /\ history db2 = Some (insert_row (Version m) false t2))
    /\ (forall db v db',
       StronglySorted version_le ms ->
       runUp ms config oldVersion db = ((v, None), db') ->
       (v = oldVersion
        /\ forall m, In m ms -> oldVersion < Version m -> Up m = None)
       \/ (exists m,
            In m ms /\ oldVersion < Version m /\ Up m <> None
            /\ Version m = v
            /\ forall m', In m' ms -> oldVersion < Version m' ->
                          Up m' <> None -> Version m' <= v)).
Proof.
  intros ms config oldVersion. split; [|split].
  - intros pre m post db -> Hnil. unfold runUp.
    rewrite runUp_loop_filter, (runUp_loop_filter _ _ (pre ++ post)).
    rewrite !filter_app. cbn [filter].
    replace (pending oldVersion m) with false; [reflexivity|].
    unfold pending. rewrite Hnil. simpl. now rewrite orb_true_r.
  - intros pre m post up db v db1 db2 -> Hlt Hup Hpre Happly.
    unfold runUp in *. rewrite (runUp_loop_app _ _ _ _ _ _ _ _ Hpre).
    rewrite (runUp_loop_step _ _ _ _ up)
      by (try apply pending_spec; try split; congruence).
    rewrite Happly. split; [reflexivity|].
    destruct (applyUp_ok_inv _ _ _ _ _ Happly)
      as (t1 & d1 & d2 & t2 & H1 & H2 & _ & H3 & H4 & H5 & _).
    now exists t1, d1, d2, t2.
  - intros db v db' Hs Hrun. unfold runUp in Hrun.
    apply runUp_loop_complete in Hrun.
    destruct (filter (pending oldVersion) ms) as [|a l] eqn:F.
    + left. split; [exact Hrun|]. intros m Hm Hlt.
      destruct (Up m) as [up|] eqn:U; [exfalso | reflexivity].
      assert (Hp : In m (filter (pending oldVersion) ms)).
      { apply filter_In. split; [exact Hm|].
        apply pending_spec. split; congruence. }
      rewrite F in Hp. contradiction.
    + right. rewrite <- F in Hrun.
      destruct (last_map_In (filter (pending oldVersion) ms) oldVersion)
        as (m & Hm & E); [rewrite F; discriminate|].
      apply filter_In in Hm as [Hm Hp]. apply pending_spec in Hp as [Hlt Hup].
      exists m. repeat split; try assumption; [congruence|].
      intros m' Hm' Hlt' Hup'. rewrite Hrun.
      apply sorted_last_greatest; [now apply filter_sorted|].
      apply filter_In. split; [exact Hm'|]. now apply pending_spec.
Qed.

Lemma runUp_applies_pending_with_up_witness :
  let m1 := mkMigration 1 None (Some noop) in
  let m2 := mkMigration 2 (Some noop) (Some noop) in
  let config := mkConfig UP POSTGRES in
  let db := mkDB (Some (mkTable 1 [])) [] [] in
  let db' := mkDB (Some (mkTable 3 [mkRow 1 2 true; mkRow 2 2 false])) [] [] in
  runUp [m1; m2] config 0 db = runUp [m2] config 0 db
  /\ runUp [m1; m2] config 0 db = ((2, None), db')
  /\ exists m, In m [m1; m2] /\ Up m <> None /\ Version m = 2.
Proof.
  intros m1 m2 config db db'.
  destruct (runUp_applies_pending_with_up [m1; m2] config 0)
    as (Hskip & Hstep & Hdone).
  split; [|split].
  - apply (Hskip [] m1 [m2]); reflexivity.
  - apply (Hstep [m1] m2 [] noop db 0 db db'); reflexivity.
  - destruct (Hdone db 2 db') as [[H _] | (m & Hm & _ & Hup & Hv & _)].
    + repeat constructor; unfold version_le; simpl; lia.
    + reflexivity.
    + discriminate H.
    + exists m. now repeat split.
Defined.

(** C5 as the claim states it fails: the only registered migration has
    version 1 and no up procedure; [UP] from version 0 records nothing and
    returns [{false, 0, nil}], not version 1. *)
Lemma Run_up_absent_up_counterexample :
  let m := mkMigration 1 None (Some noop) in
  Run [m] [POSTGRES; UP] (mkDB None [] []) =
    (([m], mkResult false 0 None), mkDB (Some (mkTable 1 [])) [] [])
  /\ 0 < Version m
  /\ newVersion (snd (fst (Run [m] [POSTGRES; UP] (mkDB None [] [])))) <> 1.
Proof.
  intros m. split; [reflexivity|]. split; [simpl; lia | discriminate].
Qed.

(** * Further properties of the engine *)

(** ** Options *)

(** X1: the result of [parseOptions] depends only on whether [DOWN] and
    whether [MYSQL] occur among the options: neither the order, nor
    repetitions, nor any other token matters. *)
Theorem parseOptions_membership_only :
  forall a b,
    (In DOWN a <-> In DOWN b) ->
    (In MYSQL a <-> In MYSQL b) ->
    parseOptions a = parseOptions b.
Proof.
  intros a b HD HM. rewrite !parseOptions_spec.
  assert (ED : mentions DOWN a = mentions DOWN b).
  { destruct (mentions DOWN a) eqn:Ea, (mentions DOWN b) eqn:Eb; auto.
    - apply mentions_In, HD, mentions_In in Ea. congruence.
    - apply mentions_In, HD, mentions_In in Eb. congruence. }
  assert (EM : mentions MYSQL a = mentions MYSQL b).
  { destruct (mentions MYSQL a) eqn:Ea, (mentions MYSQL b) eqn:Eb; auto.
    - apply mentions_In, HM, mentions_In in Ea. congruence.
    - apply mentions_In, HM, mentions_In in Eb. congruence. }
  now rewrite ED, EM.
Qed.

Lemma parseOptions_membership_only_witness :
  parseOptions [DOWN; "x"%string; MYSQL; DOWN] = parseOptions [MYSQL; UP; DOWN].
Proof.
  apply parseOptions_membership_only; simpl; intuition discriminate.
Defined.

(** X2: the configuration [Run] builds from its options never reaches a
    [default] branch: the dispatch is [runDown] when [DOWN] occurs among
    the options and [runUp] otherwise, [createTable] always issues its
    statement, and [setVersion] always prepares and executes its insert. *)
Theorem parseOptions_reaches_no_default :
  forall options,
    (forall ms v,
       runMigrations ms (parseOptions options) v =
       if mentions DOWN options
       then runDown ms (parseOptions options) v
       else runUp ms (parseOptions options) v)
    /\ createTable (parseOptions options) = exec_create_table
    /\ (forall db, fst (createTable (parseOptions options) db)
                   <> Some errUnrecognizedDatabase)
    /\ (forall v b db, fst (setVersion (parseOptions options) v b db)
                       <> Some errUnrecognizedDatabase).
Proof.
  intros options. rewrite parseOptions_spec.
  assert (HC : createTable
                 (mkConfig (if mentions DOWN options then DOWN else UP)
                    (if mentions MYSQL options then MYSQL else POSTGRES))
               = exec_create_table).
  { unfold createTable. simpl. now destruct (mentions MYSQL options). }
  split; [|split; [exact HC|split]].
  - intros ms v. unfold runMigrations. simpl.
    now destruct (mentions DOWN options).
  - intros db. rewrite HC. unfold exec_create_table, bind.
    destruct (roundtrip db) as [[e|] db1] eqn:R.
    + apply roundtrip_inv in R as (_ & _ & _ & [D | (msg & [= ->] & _)]);
        simpl; [discriminate D | discriminate].
    + destruct (history db1); discriminate.
  - intros v b db. unfold setVersion, prepare_insert, stmt_exec, bind.
    replace (String.eqb _ POSTGRES || String.eqb _ MYSQL) with true
      by (simpl; now destruct (mentions MYSQL options)).
    destruct (roundtrip db) as [[e|] db1] eqn:R.
    { apply roundtrip_inv in R as (_ & _ & _ & [D | (msg & [= ->] & _)]);
        simpl; [discriminate D | discriminate]. }
    destruct (history db1); [|discriminate].
    destruct (roundtrip db1) as [[e|] db2] eqn:R2.
    + apply roundtrip_inv in R2 as (_ & _ & _ & [D | (msg & [= ->] & _)]);
        simpl; [discriminate D | discriminate].
    + destruct (history db2); discriminate.
Qed.

(** ** The bookkeeping store *)

Lemma recognized_dialect_dec config :
  {recognized_dialect config} + {~ recognized_dialect config}.
Proof.
  unfold recognized_dialect.
  destruct (String.eqb_spec (Database config) POSTGRES) as [E1|N1];
    [left; now left|].
  destruct (String.eqb_spec (Database config) MYSQL) as [E2|N2];
    [left; now right|].
  right. intros [H|H]; contradiction.
Qed.

Lemma createTable_unrecognized config db :
  ~ recognized_dialect config ->
  createTable config db = (Some errUnrecognizedDatabase, db).
Proof.
  intros H. unfold createTable, recognized_dialect in *.
  destruct (String.eqb_spec (Database config) POSTGRES) as [E1|N1];
    [exfalso; auto|].
  destruct (String.eqb_spec (Database config) MYSQL) as [E2|N2];
    [exfalso; auto|].
  reflexivity.
Qed.

Lemma createTable_recognized config :
  recognized_dialect config -> createTable config = exec_create_table.
Proof. unfold createTable. now intros [-> | ->]. Qed.

(** X3: [createTable] never loses anything.  Whatever the dialect and the
    driver do, the user's relations are untouched and an existing
    [migrations] relation keeps its rows and its sequence; when it returns
    [nil] the relation exists (empty, with a fresh sequence, if it did not
    exist before); when it fails the relation is as before; with a dialect
    it has no [case] for it fails with [errUnrecognizedDatabase] without
    any call to the driver; and once it has succeeded, calling it again
    with a driver that answers changes nothing. *)
Theorem createTable_only_creates :
  forall config db e db',
    createTable config db = (e, db') ->
    relations db' = relations db
    /\ (forall t, history db = Some t -> history db' = Some t)
    /\ (e = None -> history db' = Some (the_table db))
    /\ (e <> None -> history db' = history db)
    /\ (~ recognized_dialect config ->
        e = Some errUnrecognizedDatabase /\ db' = db)
    /\ (e = None -> faults db' = [] -> createTable config db' = (None, db')).
Proof.
  intros config db e db' H.
  destruct (recognized_dialect_dec config) as [Hd|Hd].
  - pose proof H as H0. rewrite createTable_recognized in H by assumption.
    unfold exec_create_table, bind in H.
    destruct (roundtrip db) as [[e1|] db1] eqn:R;
      apply roundtrip_inv in R as (H1 & L1 & _).
    + injection H as <- <-.
      repeat split; try congruence; try contradiction.
    + unfold the_table. rewrite <- H1.
      destruct (history db1) as [t|] eqn:Ht; injection H as <- <-.
      * split; [assumption|]. split; [congruence|]. split; [congruence|].
        split; [congruence|]. split; [contradiction|].
        intros _ Hf. rewrite createTable_ok by assumption. now rewrite Ht.
      * simpl. split; [assumption|]. split; [discriminate|].
        split; [reflexivity|]. split; [congruence|].
        split; [contradiction|]. intros _ Hf.
        now rewrite createTable_ok by assumption.
  - rewrite createTable_unrecognized in H by assumption.
    injection H as <- <-. repeat split; auto; discriminate.
Qed.

Lemma createTable_only_creates_witness :
  let db := mkDB (Some (mkTable 2 [mkRow 1 1 false])) ["foo"%string] [None] in
  createTable (mkConfig UP "sqlite"%string) db = (Some errUnrecognizedDatabase, db)
  /\ history (snd (createTable (mkConfig UP MYSQL) db))
     = Some (mkTable 2 [mkRow 1 1 false])
  /\ history (snd (createTable (mkConfig UP MYSQL) (mkDB None [] [])))
     = Some empty_table.
Proof.
  intros db. split; [|split].
  - destruct (createTable_only_creates (mkConfig UP "sqlite"%string) db
                (Some errUnrecognizedDatabase) db eq_refl)
      as (_ & _ & _ & _ & H & _).
    reflexivity.
  - destruct (createTable_only_creates (mkConfig UP MYSQL) db None
                (mkDB (Some (mkTable 2 [mkRow 1 1 false])) ["foo"%string] [])
                eq_refl) as (_ & H & _).
    now apply H.
  - destruct (createTable_only_creates (mkConfig UP MYSQL) (mkDB None [] [])
                None (mkDB (Some empty_table) [] []) eq_refl)
      as (_ & _ & H & _).
    now apply H.
Defined.

Lemma setVersion_unrecognized config v b db :
  ~ recognized_dialect config ->
  setVersion config v b db = (Some errUnrecognizedDatabase, db).
Proof.
  intros H. unfold setVersion, recognized_dialect in *.
  destruct (String.eqb_spec (Database config) POSTGRES) as [E1|N1];
    [exfalso; auto|].
  destruct (String.eqb_spec (Database config) MYSQL) as [E2|N2];
    [exfalso; auto|].
  reflexivity.
Qed.

(** X4: [setVersion] only ever appends.  When it returns [nil] the
    relation existed and has gained exactly one row, at the end, holding
    the given version and flag under the next id of the sequence, every
    earlier row being untouched; when it fails the relation is as before;
    the user's relations are never touched; a sequence that was ahead of
    all ids stays ahead; and with a dialect it has no [case] for it fails
    with [errUnrecognizedDatabase] without any call to the driver. *)
Theorem setVersion_appends_one_row :
  forall config v b db e db',
    setVersion config v b db = (e, db') ->
    relations db' = relations db
    /\ (e = None ->
        exists t, history db = Some t
          /\ history db' =
             Some (mkTable (next_id t + 1) (rows t ++ [mkRow (next_id t) v b]))
          /\ (wf_table t -> wf_table (insert_row v b t)))
    /\ (e <> None -> history db' = history db)
    /\ (~ recognized_dialect config ->
        e = Some errUnrecognizedDatabase /\ db' = db).
Proof.
  intros config v b db e db' H. destruct e as [e|].
  - destruct (setVersion_failed _ _ _ _ _ _ H) as [Hh Hr].
    split; [exact Hr|]. split; [discriminate|]. split; [now intros _|].
    intros Hd. rewrite setVersion_unrecognized in H by assumption.
    now injection H as <- <-.
  - destruct (setVersion_inv _ _ _ _ _ H) as (t & Ht & Ht' & Hr).
    split; [exact Hr|]. split.
    + intros _. exists t. split; [exact Ht|]. split; [exact Ht'|].
      apply insert_row_wf.
    + split; [congruence|].
      intros Hd. rewrite setVersion_unrecognized in H by assumption.
      discriminate H.
Qed.

Lemma setVersion_appends_one_row_witness :
  let db := mkDB (Some (mkTable 5 [mkRow 4 1 false])) [] [None; None] in
  history (snd (setVersion (mkConfig UP POSTGRES) 2 true db))
    = Some (mkTable 6 [mkRow 4 1 false; mkRow 5 2 true])
  /\ setVersion (mkConfig UP "foo"%string) 9 false db
     = (Some errUnrecognizedDatabase, db).
Proof.
  intros db. split.
  - destruct (setVersion_appends_one_row (mkConfig UP POSTGRES) 2 true db None
                (mkDB (Some (mkTable 6 [mkRow 4 1 false; mkRow 5 2 true])) [] [])
                eq_refl) as (_ & H & _).
    destruct (H eq_refl) as (t & Ht & Ht' & _).
    unfold db in Ht. simpl in Ht. injection Ht as <-. exact Ht'.
  - destruct (setVersion_appends_one_row (mkConfig UP "foo"%string) 9 false db
                (Some errUnrecognizedDatabase) db eq_refl) as (_ & _ & _ & H).
    reflexivity.
Defined.

Lemma getVersion_reads db t r db1 :
  history db = Some t -> latest (rows t) = Some r ->
  roundtrip db = (None, db1) ->
  getVersion db =
  ((row_version r,
    if row_running r then Some errMigrationAlreadyRunning else None), db1).
Proof.
  intros Ht Hl R. unfold getVersion, query_latest, bind. rewrite R.
  apply roundtrip_inv in R as (H1 & _). rewrite H1, Ht, Hl. simpl.
  now destruct (row_running r).
Qed.

(** X5: what [setVersion] writes, [getVersion] reads back.  On a relation
    whose sequence is ahead of its ids, once [setVersion version running]
    has returned [nil] the next [getVersion] that reaches the server
    returns that [version], with no error when [running] is [false] and
    with [errMigrationAlreadyRunning] when it is [true], whatever rows
    were recorded before. *)
Theorem setVersion_then_getVersion :
  forall config v b db db1 db2,
    (forall t, history db = Some t -> wf_table t) ->
    setVersion config v b db = (None, db1) ->
    roundtrip db1 = (None, db2) ->
    getVersion db1 =
    ((v, if b then Some errMigrationAlreadyRunning else None), db2).
Proof.
  intros config v b db db1 db2 Hwf HS R.
  destruct (setVersion_inv _ _ _ _ _ HS) as (t & Ht & Ht' & _).
  rewrite (getVersion_reads db1 (insert_row v b t) (mkRow (next_id t) v b) db2);
    auto.
  apply latest_insert_row. now apply Hwf.
Qed.

Lemma setVersion_then_getVersion_witness :
  let db := mkDB (Some (mkTable 5 [mkRow 4 7 false; mkRow 2 9 true])) [] [] in
  getVersion (snd (setVersion (mkConfig UP MYSQL) 3 false db))
    = ((3, None), snd (setVersion (mkConfig UP MYSQL) 3 false db))
  /\ getVersion (snd (setVersion (mkConfig UP MYSQL) 3 true db))
    = ((3, Some errMigrationAlreadyRunning),
       snd (setVersion (mkConfig UP MYSQL) 3 true db)).
Proof.
  intros db. split.
  - apply (setVersion_then_getVersion (mkConfig UP MYSQL) 3 false db);
      [|reflexivity|reflexivity].
    intros t [= <-]. repeat constructor; simpl; lia.
  - apply (setVersion_then_getVersion (mkConfig UP MYSQL) 3 true db);
      [|reflexivity|reflexivity].
    intros t [= <-]. repeat constructor; simpl; lia.
Defined.

(** X6: [getVersion] only reads, and answers [nil] only for a settled
    database.  It never changes the [migrations] relation or the user's
    relations; when it returns [(v, nil)] the relation exists and either
    it is empty and [v = 0], or its row of greatest id holds [v] with
    [running = false]; when the relation does not exist it returns the
    driver's error with version [0]. *)
Theorem getVersion_reads_only :
  forall db v e db',
    getVersion db = ((v, e), db') ->
    history db' = history db /\ relations db' = relations db
    /\ (e = None ->
        exists t, history db = Some t
          /\ match latest (rows t) with
             | None => v = 0
             | Some r => row_version r = v /\ row_running r = false
             end)
    /\ (history db = None -> v = 0 /\ e <> None /\ e <> Some ErrNoRows).
Proof.
  intros db v e db' H.
  destruct (getVersion_data _ _ _ H) as [Hh Hr].
  split; [exact Hh|]. split; [exact Hr|].
  unfold getVersion, query_latest, bind in H.
  destruct (roundtrip db) as [[e1|] db1] eqn:R;
    apply roundtrip_inv in R as (H1 & L1 & _ & D).
  - destruct D as [D | (msg & [= ->] & _)]; [discriminate|].
    injection H as <- <- <-. split; [discriminate|].
    intros _. repeat split; discriminate.
  - destruct (history db1) as [t|] eqn:Ht.
    + split.
      * intros ->. exists t. split; [congruence|].
        destruct (latest (rows t)) as [r|]; simpl in H.
        -- destruct (row_running r) eqn:Rr; unfold ret in H;
             [discriminate H|].
           injection H as <- _. now split.
        -- unfold ret in H. now injection H as <- _.
      * intros Hn. congruence.
    + injection H as <- <- <-. split; [discriminate|].
      intros _. repeat split; discriminate.
Qed.

Lemma getVersion_reads_only_witness :
  let db := mkDB (Some (mkTable 4 [mkRow 1 1 true; mkRow 3 2 false])) [] [] in
  exists t, history db = Some t
    /\ match latest (rows t) with
       | None => 2 = 0
       | Some r => row_version r = 2 /\ row_running r = false
       end.
Proof.
  intros db.
  destruct (getVersion_reads_only db 2 None db eq_refl) as (_ & _ & H & _).
  now apply H.
Defined.

(** ** Registry *)

(** X7: the registry invariant.  Whatever calls are made, in whatever
    order and with whatever repetitions, a registry whose versions are
    pairwise distinct stays so; [Register] never removes, replaces or
    reorders an entry (the old registry is a prefix of the new one); every
    call is answered; the registry grows by exactly the number of calls
    that returned [nil]; and the registered versions are those that were
    there before together with those that were asked for. *)
Theorem RegisterAll_keeps_versions_distinct :
  forall calls ms,
    NoDup (map Version ms) ->
    NoDup (map Version (fst (RegisterAll ms calls)))
    /\ (exists added, fst (RegisterAll ms calls) = ms ++ added)
    /\ List.length (snd (RegisterAll ms calls)) = List.length calls
    /\ List.length (fst (RegisterAll ms calls)) =
       (List.length ms
        + List.length (filter is_none (snd (RegisterAll ms calls))))%nat
    /\ (forall v, In v (map Version (fst (RegisterAll ms calls))) <->
                  In v (map Version ms) \/ In v (map call_version calls)).
Proof.
  induction calls as [|[[v u] d] rest IH]; intros ms ND.
  - simpl. split; [exact ND|]. split; [exists []; now rewrite app_nil_r|].
    split; [reflexivity|]. split; [lia|]. intros x. tauto.
  - cbn [RegisterAll]. unfold Register.
    destruct (versionAlreadyRegistered ms v) eqn:E.
    + destruct (IH ms ND) as (I1 & I2 & I3 & I4 & I5).
      destruct (RegisterAll ms rest) as [ms' es]. simpl in *.
      split; [exact I1|]. split; [exact I2|]. split; [now rewrite I3|].
      split; [exact I4|]. intros x. rewrite I5.
      apply versionAlreadyRegistered_In in E.
      unfold call_version at 2. simpl. split; [tauto|].
      intros [H|[<-|H]]; auto.
    + assert (ND' : NoDup (map Version (ms ++ [mkMigration v u d]))).
      { pose proof (Register_NoDup ms v u d ND) as H. unfold Register in H.
        now rewrite E in H. }
      destruct (IH _ ND') as (I1 & (added & I2) & I3 & I4 & I5).
      destruct (RegisterAll (ms ++ [mkMigration v u d]) rest) as [ms' es].
      simpl in *. split; [exact I1|]. split.
      { exists (mkMigration v u d :: added). rewrite I2.
        now rewrite <- app_assoc. }
      split; [now rewrite I3|]. split.
      { rewrite I4, length_app. simpl. lia. }
      intros x. rewrite I5, map_app, in_app_iff. simpl.
      unfold call_version at 2. simpl. tauto.
Qed.

Lemma RegisterAll_keeps_versions_distinct_witness :
  let calls : list call := [(2, None, None); (1, None, None); (2, Some noop, None)] in
  NoDup (map Version (fst (RegisterAll [mkMigration 1 None None] calls)))
  /\ List.length (fst (RegisterAll [mkMigration 1 None None] calls)) = 2%nat.
Proof.
  intros calls.
  destruct (RegisterAll_keeps_versions_distinct calls [mkMigration 1 None None])
    as (H1 & _ & _ & H4 & _).
  - simpl. repeat constructor. intros [].
  - split; [exact H1 | exact H4].
Defined.

(** ** [Run] and the registry *)

Lemma Run_registry ms options db :
  fst (fst (Run ms options db)) = sort_byVersion ms.
Proof.
  destruct ms as [|m rest]; [reflexivity|]. unfold Run, bind.
  destruct (createTable (parseOptions options) db) as [[e|] db0];
    [reflexivity|].
  destruct (getVersion db0) as [[oldVersion [e|]] db1]; [reflexivity|].
  now destruct (runMigrations _ _ oldVersion db1) as [[v e] db2].
Qed.

Lemma sorted_strict (l : list migration) :
  StronglySorted version_le l -> NoDup (map Version l) ->
  StronglySorted version_lt l.
Proof.
  induction 1 as [|a l Hs IH Ha]; simpl; intros ND; [constructor|].
  inversion ND as [|? ? Hnot ND']; subst. constructor; [now apply IH|].
  rewrite Forall_forall in Ha |- *. intros x Hx.
  specialize (Ha x Hx). unfold version_le, version_lt in *.
  assert (Version a <> Version x).
  { intros E. apply Hnot. rewrite E. now apply in_map. }
  lia.
Qed.

(** X8: in every outcome, failures included, [Run] leaves the registry
    holding the same migrations as before, reordered by ascending version
    (strictly ascending when the versions are pairwise distinct).  The
    reordering is that of [sort.Sort] with [byVersion.Less]; any sort gives
    this order when the versions are distinct. *)
Theorem Run_leaves_registry_sorted :
  forall ms options db,
    Permutation ms (fst (fst (Run ms options db)))
    /\ StronglySorted version_le (fst (fst (Run ms options db)))
    /\ (NoDup (map Version ms) ->
        StronglySorted version_lt (fst (fst (Run ms options db)))).
Proof.
  intros ms options db. rewrite Run_registry. split; [|split].
  - apply sort_byVersion_perm.
  - apply sort_byVersion_sorted.
  - intros ND. apply sorted_strict.
    + apply sort_byVersion_sorted.
    + now apply sort_byVersion_NoDup.
Qed.

Lemma Run_leaves_registry_sorted_witness :
  let m1 := mkMigration 1 None None in
  let m5 := mkMigration 5 None None in
  let m3 := mkMigration 3 (Some (failing "Foo")) None in
  StronglySorted version_lt
    (fst (fst (Run [m5; m1; m3] [UP] (mkDB None [] [])))).
Proof.
  intros m1 m5 m3.
  apply (Run_leaves_registry_sorted [m5; m1; m3] [UP] (mkDB None [] [])).
  simpl. repeat constructor; simpl; intuition discriminate.
Defined.

(** ** The forward loop *)

Lemma runUp_loop_version config oldVersion ms : forall newVersion db,
  fst (fst (runUp_loop config oldVersion newVersion ms db)) = newVersion
  \/ exists m, In m ms
       /\ Version m = fst (fst (runUp_loop config oldVersion newVersion ms db))
       /\ oldVersion < Version m /\ Up m <> None.
Proof.
  induction ms as [|m rest IH]; intros newVersion db; [now left|].
  destruct (pending oldVersion m) eqn:P.
  - destruct (proj1 (pending_spec _ _) P) as [Hlt Hup].
    destruct (Up m) as [up|] eqn:U; [|congruence].
    rewrite (runUp_loop_step _ _ _ _ up) by assumption.
    destruct (applyUp config m up db) as [[e|] db1]; [now left|].
    destruct (IH (Version m) db1) as [E | (m' & Hin & E & Hlt' & Hup')].
    + right. exists m. rewrite E, U. repeat split; auto. now left.
    + right. exists m'. repeat split; auto. now right.
  - rewrite runUp_loop_skip by assumption.
    destruct (IH newVersion db) as [E | (m' & Hin & E & Hlt' & Hup')].
    + now left.
    + right. exists m'. repeat split; auto. now right.
Qed.

Lemma runUp_loop_nothing_pending config oldVersion ms : forall newVersion db,
  (forall m, In m ms -> pending oldVersion m = false) ->
  runUp_loop config oldVersion newVersion ms db = ((newVersion, None), db).
Proof.
  induction ms as [|m rest IH]; intros newVersion db H; [reflexivity|].
  rewrite runUp_loop_skip by (apply H; now left).
  apply IH. intros m' Hm'. apply H. now right.
Qed.

(** X9: [runUp] never goes back and never invents a version.  Whatever
    the registry (sorted or not), the handlers and the driver do, the
    version it returns is the current version or the version of a
    registered migration that is above the current version and has an up
    procedure; in particular it is never below the current version.  And
    when no registered migration is both above the current version and
    equipped with an up procedure, it returns the current version with no
    error and without any call to the database. *)
Theorem runUp_returns_reached_version :
  forall ms config oldVersion db,
    (fst (fst (runUp ms config oldVersion db)) = oldVersion
     \/ exists m, In m ms
          /\ Version m = fst (fst (runUp ms config oldVersion db))
          /\ oldVersion < Version m /\ Up m <> None)
    /\ oldVersion <= fst (fst (runUp ms config oldVersion db))
    /\ ((forall m, In m ms -> oldVersion < Version m -> Up m = None) ->
        runUp ms config oldVersion db = ((oldVersion, None), db)).
Proof.
  intros ms config oldVersion db. unfold runUp.
  pose proof (runUp_loop_version config oldVersion ms oldVersion db) as H.
  split; [exact H|]. split.
  - destruct H as [-> | (m & _ & <- & Hlt & _)]; lia.
  - intros Hnone. apply runUp_loop_nothing_pending. intros m Hm.
    destruct (pending oldVersion m) eqn:P; [|reflexivity].
    apply pending_spec in P as [Hlt Hup]. now specialize (Hnone m Hm Hlt).
Qed.

Lemma runUp_returns_reached_version_witness :
  let ms := [mkMigration 7 None (Some noop); mkMigration 2 (Some noop) None] in
  let db := mkDB None [] [Some "down"%string] in
  runUp ms (mkConfig UP POSTGRES) 3 db = ((3, None), db).
Proof.
  intros ms db.
  apply (runUp_returns_reached_version ms (mkConfig UP POSTGRES) 3 db).
  simpl. intros m [<-|[<-|[]]]; simpl; [reflexivity | lia].
Defined.

(** ** The backward step *)

(** X10: the outcomes of [runDown].  With an error it always returns the
    current version.  Without error, either the current version is [0] and
    nothing at all was done, or it returns [m.Version - 1] (int64) for a
    registered migration [m] whose version is at most the current one.  So
    when every registered version is an int64 above the least one, the
    version returned is never above the current version: [runDown] never
    goes forward. *)
Theorem runDown_outcomes :
  forall ms config oldVersion db v e db',
    runDown ms config oldVersion db = ((v, e), db') ->
    (e <> None -> v = oldVersion)
    /\ (e = None ->
        (oldVersion = 0 /\ v = 0 /\ db' = db)
        \/ (oldVersion <> 0 /\ exists m,
              In m ms /\ Version m <= oldVersion /\ v = sub64 (Version m) 1))
    /\ ((forall m, In m ms -> min_int64 < Version m <= max_int64) ->
        v <= oldVersion).
Proof.
  intros ms config oldVersion db v e db' H. unfold runDown, bind in H.
  destruct (Z.eqb_spec oldVersion 0) as [Hz|Hz].
  { injection H as <- <- <-. subst oldVersion.
    split; [congruence|]. split; [now left | intros; lia]. }
  destruct (findPrevious ms oldVersion) as [m|] eqn:F.
  2:{ injection H as <- <- <-. split; [reflexivity|].
      split; [discriminate | intros; lia]. }
  unfold findPrevious in F. apply find_some in F as [Hin Hle].
  apply in_rev in Hin. apply Z.leb_le in Hle.
  destruct (setVersion config (sub64 (Version m) 1) true db) as [[e1|] db1].
  { injection H as <- <- <-. split; [reflexivity|].
    split; [discriminate | intros; lia]. }
  destruct (invoke (Down m) db1) as [[e2|] db2].
  { injection H as <- <- <-. split; [reflexivity|].
    split; [discriminate | intros; lia]. }
  destruct (setVersion config (sub64 (Version m) 1) false db2) as [[e3|] db3].
  { injection H as <- <- <-. split; [reflexivity|].
    split; [discriminate | intros; lia]. }
  injection H as <- <- <-. split; [congruence|]. split.
  - intros _. right. split; [exact Hz|]. now exists m.
  - intros Hr. rewrite sub64_in_range by now apply Hr. lia.
Qed.

Lemma runDown_outcomes_witness :
  let ms := [mkMigration 1 (Some noop) (Some noop);
             mkMigration 4 (Some noop) (Some (failing "Foo"))] in
  let db := mkDB (Some (mkTable 2 [mkRow 1 4 false])) [] [] in
  fst (fst (runDown ms (mkConfig DOWN POSTGRES) 4 db)) = 4.
Proof.
  intros ms db.
  destruct (runDown_outcomes ms (mkConfig DOWN POSTGRES) 4 db 4
              (Some (ErrUser "Foo"))
              (mkDB (Some (mkTable 3 [mkRow 1 4 false; mkRow 2 3 true])) [] [])
              eq_refl) as (H & _ & _).
  reflexivity.
Defined.

(** ** Runs that follow one another *)

Lemma prologue_ready db v :
  faults db = [] -> wf_table (the_table db) -> settled_at db v ->
  ready (with_history (Some (the_table db)) db) v.
Proof.
  intros Hf Hwf Hv. split; [exact Hf|].
  exists (the_table db). split; [reflexivity|]. split; [exact Hwf|exact Hv].
Qed.

Lemma ready_prologue config db v :
  recognized_dialect config -> ready db v ->
  createTable config db = (None, db) /\ getVersion db = ((v, None), db).
Proof.
  intros Hd (Hf & t & Ht & Hwf & Hv). split.
  - rewrite createTable_ok by assumption. now rewrite Ht.
  - now apply (getVersion_settled db t).
Qed.

Lemma Run_blocked ms options db db0 v e db1 :
  ms <> [] ->
  createTable (parseOptions options) db = (None, db0) ->
  getVersion db0 = ((v, Some e), db1) ->
  Run ms options db = ((sort_byVersion ms, mkResult false 0 (Some e)), db1).
Proof.
  intros Hne C G. destruct ms as [|m rest]; [contradiction|].
  unfold Run, bind. now rewrite C, G.
Qed.

(** A healthy store whose last row is an in-flight marker blocks [Run]. *)
Lemma Run_on_marker ms options db t v :
  ms <> [] -> faults db = [] -> history db = Some t -> wf_table t ->
  Run ms options (with_history (Some (insert_row v true t)) db) =
  ((sort_byVersion ms, mkResult false 0 (Some errMigrationAlreadyRunning)),
   with_history (Some (insert_row v true t)) db).
Proof.
  intros Hne Hf Ht Hwf.
  set (db' := with_history (Some (insert_row v true t)) db).
  apply (Run_blocked ms options db' db' v).
  - exact Hne.
  - rewrite createTable_ok by (try apply parseOptions_dialect; exact Hf).
    reflexivity.
  - apply (getVersion_running db' (insert_row v true t) (mkRow (next_id t) v true)).
    + reflexivity.
    + now apply latest_insert_row.
    + reflexivity.
    + now apply roundtrip_ok.
Qed.

Lemma applyUp_ready config m up db v0 db' :
  recognized_dialect config -> keeps_store up -> ready db v0 ->
  applyUp config m up db = (None, db') -> ready db' (Version m).
Proof.
  intros Hd Hk (Hf & t & Ht & Hwf & _) H. unfold applyUp, bind in H.
  rewrite (setVersion_ok _ _ _ _ t) in H by assumption.
  set (db1 := with_history (Some (insert_row (Version m) true t)) db) in *.
  destruct (Hk db1 (insert_row (Version m) true t)) as (Hf2 & t2 & Ht2 & Hwf2);
    [exact Hf | reflexivity | now apply insert_row_wf |].
  destruct (up db1) as [[e|] db2]; [discriminate H|]. simpl in *.
  rewrite (setVersion_ok _ _ _ _ t2) in H by assumption.
  injection H as <-. split; [exact Hf2|].
  exists (insert_row (Version m) false t2). split; [reflexivity|].
  split; [now apply insert_row_wf|].
  rewrite latest_insert_row by assumption. now split.
Qed.

Lemma runUp_loop_ready config oldVersion ms : forall newVersion db v db',
  recognized_dialect config ->
  (forall m up, In m ms -> Up m = Some up -> keeps_store up) ->
  ready db newVersion ->
  runUp_loop config oldVersion newVersion ms db = ((v, None), db') ->
  ready db' v.
Proof.
  induction ms as [|m rest IH]; intros newVersion db v db' Hd Hk Hr H.
  - simpl in H. now injection H as <- <-.
  - assert (Hk' : forall m' up, In m' rest -> Up m' = Some up -> keeps_store up)
      by (intros m' up Hm'; apply Hk; now right).
    destruct (pending oldVersion m) eqn:P.
    + destruct (proj1 (pending_spec _ _) P) as [_ Hup].
      destruct (Up m) as [up|] eqn:U; [|congruence].
      rewrite (runUp_loop_step _ _ _ _ up) in H by assumption.
      destruct (applyUp config m up db) as [[e|] db1] eqn:A; [discriminate H|].
      apply (IH (Version m) db1 v db'); auto.
      apply (applyUp_ready config m up db newVersion); auto.
      apply (Hk m); [now left | exact U].
    + rewrite runUp_loop_skip in H by assumption. now apply (IH newVersion db).
Qed.

(** X11: a successful [UP] is a fixed point.  Let the handlers leave the
    driver answering and the [migrations] relation in place, and let the
    database be settled.  If [Run] with action [UP] returns no error, then
    running it again on the database it left returns
    [{false, same version, nil}] and leaves that database exactly as it
    is: nothing is applied twice, no handler runs, no row is written. *)
Theorem Run_up_success_is_fixed_point :
  forall ms options db changed v db',
    ~ In DOWN options ->
    (forall m up, In m ms -> Up m = Some up -> keeps_store up) ->
    faults db = [] -> wf_table (the_table db) ->
    (exists oldVersion, settled_at db oldVersion) ->
    Run ms options db = ((sort_byVersion ms, mkResult changed v None), db') ->
    Run ms options db' = ((sort_byVersion ms, mkResult false v None), db').
Proof.
  intros ms options db changed v db' HnD Hk Hf Hwf [oldVersion Hv] H.
  destruct ms as [|m0 rest0] eqn:Ems; [now injection H as _ <- <-|].
  rewrite <- Ems in *. assert (Hne : ms <> []) by (rewrite Ems; discriminate).
  clear Ems m0 rest0.
  pose proof (parseOptions_dialect options) as Hd.
  pose proof (parseOptions_up options HnD) as HA.
  set (db0 := with_history (Some (the_table db)) db) in *.
  pose proof (prologue_ready db oldVersion Hf Hwf Hv) as Hr0. fold db0 in Hr0.
  rewrite (Run_after_prologue ms options db db0 oldVersion db0 Hne) in H;
    [|now apply createTable_healthy
     |now apply (getVersion_settled db0 (the_table db))].
  rewrite runMigrations_up in H by assumption.
  destruct (runUp (sort_byVersion ms) (parseOptions options) oldVersion db0)
    as [[v0 e0] db2] eqn:RU.
  injection H as _ -> -> ->. unfold runUp in RU.
  assert (Hr : ready db' v).
  { apply (runUp_loop_ready _ _ _ _ _ _ _ Hd) with (3 := RU); [|exact Hr0].
    intros m up Hm. apply Hk. exact (proj1 (sort_byVersion_In _ _) Hm). }
  destruct (ready_prologue _ _ _ Hd Hr) as [C G].
  rewrite (Run_after_prologue ms options db' db' v db' Hne C G).
  rewrite runMigrations_up by assumption. unfold runUp.
  rewrite runUp_loop_nothing_pending; [now rewrite Z.eqb_refl|].
  intros m Hm. destruct (pending v m) eqn:P; [exfalso | reflexivity].
  apply pending_spec in P as [Hlt Hup].
  pose proof (runUp_loop_version (parseOptions options) oldVersion
                (sort_byVersion ms) oldVersion db0) as Hb.
  rewrite RU in Hb. simpl in Hb.
  assert (Hge : oldVersion <= v)
    by (destruct Hb as [-> | (m' & _ & <- & Hlt' & _)]; lia).
  apply runUp_loop_complete in RU.
  assert (Hmax : Version m <=
                 last (map Version
                         (filter (pending oldVersion) (sort_byVersion ms)))
                      oldVersion).
  { apply sorted_last_greatest.
    - apply filter_sorted, sort_byVersion_sorted.
    - apply filter_In. split; [exact Hm|].
      apply pending_spec. split; [lia | exact Hup]. }
  lia.
Qed.

Lemma Run_up_success_is_fixed_point_witness :
  let m1 := mkMigration 1 (Some noop) None in
  let m2 := mkMigration 2 None (Some noop) in
  let m3 := mkMigration 3 (Some noop) (Some noop) in
  let db' := mkDB (Some (mkTable 5 [mkRow 1 1 true; mkRow 2 1 false;
                                    mkRow 3 3 true; mkRow 4 3 false])) [] [] in
  Run [m3; m1; m2] [UP] db' = (([m1; m2; m3], mkResult false 3 None), db').
Proof.
  intros m1 m2 m3 db'.
  apply (Run_up_success_is_fixed_point [m3; m1; m2] [UP] (mkDB None [] [])
           true 3 db').
  - simpl. intros [H|[]]. discriminate H.
  - intros m up [<-|[<-|[<-|[]]]] [= <-];
      intros db t Hf Ht Hwf; simpl; split; eauto.
  - reflexivity.
  - constructor.
  - exists 0. reflexivity.
  - reflexivity.
Defined.

(** X12: a failed [UP] blocks every later run.  On a settled database
    with a driver that answers, let the attempt on a pending migration
    fail in its up procedure, the procedure leaving the database as it
    found it.  Then [Run] returns that error with the last version
    applied before, and the database it leaves ends with the
    [running = true] row of the failed migration: every later [Run], with
    any non-empty registry and any options, returns
    [{false, 0, errMigrationAlreadyRunning}] and changes nothing. *)
Theorem Run_up_failure_blocks_next_run :
  forall ms options db oldVersion pre m up post v db2,
    ~ In DOWN options ->
    faults db = [] -> wf_table (the_table db) -> settled_at db oldVersion ->
    sort_byVersion ms = pre ++ m :: post ->
    (forall m' up', In m' pre -> Up m' = Some up' -> keeps_store up') ->
    runUp pre (parseOptions options) oldVersion
      (with_history (Some (the_table db)) db) = ((v, None), db2) ->
    oldVersion < Version m -> Up m = Some up -> fails_clean up ->
    exists e db3,
      Run ms options db =
        ((sort_byVersion ms, mkResult (negb (oldVersion =? v)) v (Some e)), db3)
      /\ up db3 = (Some e, db3)
      /\ forall ms' options', ms' <> [] ->
           Run ms' options' db3 =
           ((sort_byVersion ms',
             mkResult false 0 (Some errMigrationAlreadyRunning)), db3).
Proof.
  intros ms options db oldVersion pre m up post v db2
         HnD Hf Hwf Hv Hsort Hk Hpre Hlt Hup Hclean.
  pose proof (sort_byVersion_nonempty _ _ _ _ Hsort) as Hne.
  pose proof (parseOptions_dialect options) as Hd.
  set (db0 := with_history (Some (the_table db)) db) in *.
  pose proof (prologue_ready db oldVersion Hf Hwf Hv) as Hr0. fold db0 in Hr0.
  unfold runUp in Hpre.
  destruct (runUp_loop_ready _ _ _ _ _ _ _ Hd Hk Hr0 Hpre)
    as (Hf2 & t2 & Ht2 & Hwf2 & _).
  set (db3 := with_history (Some (insert_row (Version m) true t2)) db2).
  destruct (Hclean db3) as [e He].
  exists e, db3. split; [|split].
  - rewrite (Run_after_prologue ms options db db0 oldVersion db0 Hne);
      [|now apply createTable_healthy
       |now apply (getVersion_settled db0 (the_table db))].
    rewrite runMigrations_up by now apply parseOptions_up.
    rewrite Hsort. unfold runUp.
    rewrite (runUp_loop_app _ _ _ _ _ _ _ _ Hpre).
    rewrite (runUp_loop_step _ _ _ _ up)
      by (try apply pending_spec; try split; congruence).
    unfold applyUp, bind.
    rewrite (setVersion_ok _ _ _ _ t2) by assumption.
    fold db3. now rewrite He.
  - exact He.
  - intros ms' options' Hne'. now apply Run_on_marker.
Qed.

Lemma Run_up_failure_blocks_next_run_witness :
  let m1 := mkMigration 1 (Some noop) (Some noop) in
  let m2 := mkMigration 2 (Some (failing "Foo")) (Some noop) in
  exists e db3,
    Run [m2; m1] [UP] (mkDB None [] []) =
      (([m1; m2], mkResult true 1 (Some e)), db3)
    /\ failing "Foo" db3 = (Some e, db3)
    /\ forall ms' options', ms' <> [] ->
         Run ms' options' db3 =
         ((sort_byVersion ms',
           mkResult false 0 (Some errMigrationAlreadyRunning)), db3).
Proof.
  intros m1 m2.
  apply (Run_up_failure_blocks_next_run [m2; m1] [UP] (mkDB None [] []) 0
           [m1] m2 (failing "Foo") [] 1
           (mkDB (Some (mkTable 3 [mkRow 1 1 true; mkRow 2 1 false])) [] []));
    try reflexivity.
  - simpl. intros [H|[]]. discriminate H.
  - constructor.
  - intros m' up' [<-|[]] [= <-]. intros db t Hf Ht Hwf. simpl. eauto.
  - intros db. now exists (ErrUser "Foo").
Defined.

(** X13: a failed [DOWN] blocks every later run.  On a settled database
    at a version other than [0], with a driver that answers and a
    registry with pairwise distinct versions, let the down procedure of
    the selected migration fail, leaving the database as it found it.
    Then [Run] returns [{false, current version, that error}], and the
    database it leaves ends with the row [(m.Version - 1, true)]: every
    later [Run] returns [{false, 0, errMigrationAlreadyRunning}] and
    changes nothing. *)
Theorem Run_down_failure_blocks_next_run :
  forall ms options db oldVersion m down,
    In DOWN options ->
    faults db = [] -> wf_table (the_table db) -> settled_at db oldVersion ->
    oldVersion <> 0 ->
    NoDup (map Version ms) ->
    In m ms -> Version m <= oldVersion ->
    (forall m', In m' ms -> Version m' <= oldVersion ->
                Version m' <= Version m) ->
    Down m = Some down -> fails_clean down ->
    exists e db3,
      Run ms options db =
        ((sort_byVersion ms, mkResult false oldVersion (Some e)), db3)
      /\ down db3 = (Some e, db3)
      /\ history db3 =
         Some (insert_row (sub64 (Version m) 1) true (the_table db))
      /\ forall ms' options', ms' <> [] ->
           Run ms' options' db3 =
           ((sort_byVersion ms',
             mkResult false 0 (Some errMigrationAlreadyRunning)), db3).
Proof.
  intros ms options db oldVersion m down
         HD Hf Hwf Hv Hz ND Hin Hle Hmax Hdown Hclean.
  assert (Hne : ms <> []) by (intros ->; contradiction).
  pose proof (parseOptions_dialect options) as Hd.
  set (db0 := with_history (Some (the_table db)) db) in *.
  set (db3 := with_history
                (Some (insert_row (sub64 (Version m) 1) true (the_table db)))
                db0).
  destruct (Hclean db3) as [e He].
  assert (Hfind : findPrevious (sort_byVersion ms) oldVersion = Some m).
  { apply findPrevious_greatest.
    - apply sort_byVersion_sorted.
    - now apply sort_byVersion_NoDup.
    - now apply sort_byVersion_In.
    - exact Hle.
    - intros m' Hm' Hle'. apply Hmax; [|exact Hle'].
      exact (proj1 (sort_byVersion_In _ _) Hm'). }
  exists e, db3. split; [|split; [exact He|split; [reflexivity|]]].
  - rewrite (Run_after_prologue ms options db db0 oldVersion db0 Hne);
      [|now apply createTable_healthy
       |now apply (getVersion_settled db0 (the_table db))].
    rewrite runMigrations_down by now apply parseOptions_down.
    unfold runDown, bind. apply Z.eqb_neq in Hz. rewrite Hz, Hfind.
    rewrite (setVersion_ok _ _ _ _ (the_table db)) by easy.
    fold db3. unfold invoke. rewrite Hdown, He. simpl.
    now rewrite Z.eqb_refl.
  - intros ms' options' Hne'.
    now apply (Run_on_marker ms' options' db0 (the_table db)).
Qed.

Lemma Run_down_failure_blocks_next_run_witness :
  let m1 := mkMigration 1 (Some noop) (Some noop) in
  let m2 := mkMigration 2 (Some noop) (Some (failing "Foo")) in
  let db := mkDB (Some (mkTable 2 [mkRow 1 2 false])) [] [] in
  exists e db3,
    Run [m2; m1] [POSTGRES; DOWN] db =
      (([m1; m2], mkResult false 2 (Some e)), db3)
    /\ failing "Foo" db3 = (Some e, db3)
    /\ history db3 = Some (mkTable 3 [mkRow 1 2 false; mkRow 2 1 true])
    /\ forall ms' options', ms' <> [] ->
         Run ms' options' db3 =
         ((sort_byVersion ms',
           mkResult false 0 (Some errMigrationAlreadyRunning)), db3).
Proof.
  intros m1 m2 db.
  apply (Run_down_failure_blocks_next_run [m2; m1] [POSTGRES; DOWN] db 2 m2
           (failing "Foo")).
  - simpl. auto.
  - reflexivity.
  - repeat constructor; simpl; lia.
  - now split.
  - discriminate.
  - simpl. repeat constructor; simpl; intuition discriminate.
  - now left.
  - simpl. lia.
  - simpl. intros m' [<-|[<-|[]]] _; simpl; lia.
  - reflexivity.
  - intros d. now exists (ErrUser "Foo").
Defined.

Lemma applyUp_succeeds config m up db v0 :
  recognized_dialect config -> keeps_store up -> succeeds up -> ready db v0 ->
  exists db', applyUp config m up db = (None, db') /\ ready db' (Version m).
Proof.
  intros Hd Hk Hs Hr. pose proof Hr as (Hf & t & Ht & Hwf & _).
  assert (E : exists db', applyUp config m up db = (None, db')).
  { unfold applyUp, bind.
    rewrite (setVersion_ok _ _ _ _ t) by assumption.
    set (db1 := with_history (Some (insert_row (Version m) true t)) db).
    destruct (Hk db1 (insert_row (Version m) true t)) as (Hf2 & t2 & Ht2 & Hwf2);
      [exact Hf | reflexivity | now apply insert_row_wf |].
    pose proof (Hs db1) as Hnone.
    destruct (up db1) as [e db2]. simpl in *. subst e.
    rewrite (setVersion_ok _ _ _ _ t2) by assumption. eauto. }
  destruct E as [db' E]. exists db'. split; [exact E|].
  now apply (applyUp_ready config m up db v0).
Qed.

Lemma runUp_loop_succeeds config oldVersion ms : forall newVersion db,
  recognized_dialect config ->
  (forall m up, In m ms -> Up m = Some up -> keeps_store up /\ succeeds up) ->
  ready db newVersion ->
  exists v db',
    runUp_loop config oldVersion newVersion ms db = ((v, None), db')
    /\ ready db' v.
Proof.
  induction ms as [|m rest IH]; intros newVersion db Hd Hk Hr.
  - exists newVersion, db. now split.
  - assert (Hk' : forall m' up, In m' rest -> Up m' = Some up ->
                                keeps_store up /\ succeeds up)
      by (intros m' up Hm'; apply Hk; now right).
    destruct (pending oldVersion m) eqn:P.
    + destruct (proj1 (pending_spec _ _) P) as [_ Hup].
      destruct (Up m) as [up|] eqn:U; [|congruence].
      destruct (Hk m up (or_introl eq_refl) U) as [Hkeep Hsucc].
      destruct (applyUp_succeeds config m up db newVersion Hd Hkeep Hsucc Hr)
        as (db1 & A & Hr1).
      destruct (IH (Version m) db1 Hd Hk' Hr1) as (v & db' & H & Hr').
      exists v, db'. split; [|exact Hr'].
      rewrite (runUp_loop_step _ _ _ _ up) by assumption. now rewrite A.
    + destruct (IH newVersion db Hd Hk' Hr) as (v & db' & H & Hr').
      exists v, db'. split; [|exact Hr'].
      now rewrite runUp_loop_skip by assumption.
Qed.

(** X18: [UP] reaches the top.  Let the database be settled at some
    version, the driver answer, and every up procedure succeed and leave
    the driver answering and the [migrations] relation in place.  Then
    [Run] with action [UP] does return without error; the version it
    returns is the current version when no registered migration above it
    has an up procedure, and otherwise the greatest version among the
    registered migrations above the current version that have one; and
    the database it leaves is settled at the version returned. *)
Theorem Run_up_reaches_greatest :
  forall ms options db oldVersion,
    ms <> [] ->
    ~ In DOWN options ->
    (forall m up, In m ms -> Up m = Some up -> keeps_store up /\ succeeds up) ->
    faults db = [] -> wf_table (the_table db) -> settled_at db oldVersion ->
    exists v db',
      Run ms options db =
        ((sort_byVersion ms, mkResult (negb (oldVersion =? v)) v None), db')
      /\ ready db' v
      /\ oldVersion <= v
      /\ (forall m, In m ms -> oldVersion < Version m -> Up m <> None ->
                    Version m <= v)
      /\ (v = oldVersion
          \/ exists m, In m ms /\ Version m = v /\ Up m <> None).
Proof.
  intros ms options db oldVersion Hne HnD Hk Hf Hwf Hv.
  pose proof (parseOptions_dialect options) as Hd.
  set (db0 := with_history (Some (the_table db)) db).
  pose proof (prologue_ready db oldVersion Hf Hwf Hv) as Hr0. fold db0 in Hr0.
  destruct (runUp_loop_succeeds (parseOptions options) oldVersion
              (sort_byVersion ms) oldVersion db0 Hd) as (v & db' & RU & Hr');
    [|exact Hr0|].
  { intros m up Hm. apply Hk. exact (proj1 (sort_byVersion_In _ _) Hm). }
  exists v, db'.
  pose proof (runUp_loop_version (parseOptions options) oldVersion
                (sort_byVersion ms) oldVersion db0) as Hb.
  rewrite RU in Hb. simpl in Hb.
  split; [|split; [exact Hr'|split; [|split]]].
  - rewrite (Run_after_prologue ms options db db0 oldVersion db0 Hne);
      [|now apply createTable_healthy
       |now apply (getVersion_settled db0 (the_table db))].
    rewrite runMigrations_up by now apply parseOptions_up.
    unfold runUp. now rewrite RU.
  - destruct Hb as [-> | (m' & _ & <- & Hlt' & _)]; lia.
  - intros m Hm Hlt Hup. rewrite (runUp_loop_complete _ _ _ _ _ _ _ RU).
    apply sorted_last_greatest.
    + apply filter_sorted, sort_byVersion_sorted.
    + apply filter_In. split; [now apply sort_byVersion_In|].
      apply pending_spec. now split.
  - destruct Hb as [-> | (m' & Hin & E & _ & Hup)]; [now left|].
    right. exists m'. split; [exact (proj1 (sort_byVersion_In _ _) Hin)|].
    now split.
Qed.

Lemma Run_up_reaches_greatest_witness :
  let m1 := mkMigration 1 (Some noop) None in
  let m2 := mkMigration 2 (Some noop) (Some noop) in
  let m3 := mkMigration 3 None (Some noop) in
  exists v db',
    Run [m3; m2; m1] [MYSQL] (mkDB None [] []) =
      (([m1; m2; m3], mkResult (negb (0 =? v)) v None), db')
    /\ ready db' v
    /\ 0 <= v
    /\ (forall m, In m [m3; m2; m1] -> 0 < Version m -> Up m <> None ->
                  Version m <= v)
    /\ (v = 0 \/ exists m, In m [m3; m2; m1] /\ Version m = v /\ Up m <> None).
Proof.
  intros m1 m2 m3.
  apply (Run_up_reaches_greatest [m3; m2; m1] [MYSQL] (mkDB None [] []) 0).
  - discriminate.
  - simpl. intros [H|[]]. discriminate H.
  - intros m up [<-|[<-|[<-|[]]]] [= <-]; split;
      try (intros db t Hf Ht Hwf; simpl; eauto); intros db; reflexivity.
  - reflexivity.
  - constructor.
  - reflexivity.
Defined.

Lemma filter_only (p : migration -> bool) (l : list migration) m :
  NoDup l -> In m l -> p m = true ->
  (forall x, In x l -> p x = true -> x = m) ->
  filter p l = [m].
Proof.
  induction l as [|a l IH]; intros ND Hin Hp Huniq; [contradiction|].
  inversion ND as [|? ? Hnot ND']; subst. simpl.
  destruct Hin as [->|Hin].
  - rewrite Hp. f_equal.
    destruct (filter p l) as [|x xs] eqn:F; [reflexivity|].
    assert (Hx : In x (filter p l)) by (rewrite F; now left).
    apply filter_In in Hx as [Hx Hpx].
    assert (x = m) by (apply Huniq; [now right | exact Hpx]).
    subst x. contradiction.
  - destruct (p a) eqn:Pa.
    + assert (a = m) by (apply Huniq; [now left | exact Pa]).
      subst a. contradiction.
    + apply IH; auto. intros x Hx. apply Huniq. now right.
Qed.

(** X19: [DOWN] then [UP] is a round trip at the top of the registry.
    Let the versions be pairwise distinct, let the database be settled at
    the greatest registered version [v] (an int64 above the least one,
    other than [0]) with a driver that answers, and let the up and down
    procedures of that migration succeed and leave the driver answering
    and the [migrations] relation in place.  Then [Run] with action [DOWN]
    returns [{true, v - 1, nil}], and [Run] with action [UP] on the
    database it left applies that one migration again, returns
    [{true, v, nil}] and leaves the database settled at [v]. *)
Theorem Run_down_then_up_restores :
  forall ms optionsD optionsU db m up down,
    In DOWN optionsD -> ~ In DOWN optionsU ->
    NoDup (map Version ms) ->
    In m ms ->
    (forall m', In m' ms -> Version m' <= Version m) ->
    Version m <> 0 -> min_int64 < Version m <= max_int64 ->
    Up m = Some up -> keeps_store up -> succeeds up ->
    Down m = Some down -> keeps_store down -> succeeds down ->
    ready db (Version m) ->
    exists db1 db2,
      Run ms optionsD db =
        ((sort_byVersion ms, mkResult true (Version m - 1) None), db1)
      /\ ready db1 (Version m - 1)
      /\ Run ms optionsU db1 =
        ((sort_byVersion ms, mkResult true (Version m) None), db2)
      /\ ready db2 (Version m).
Proof.
  intros ms optionsD optionsU db m up down HD HnD ND Hin Hmax Hz Hrange
         Hup Hku Hsu Hdown Hkd Hsd Hr.
  assert (Hne : ms <> []) by (intros ->; contradiction).
  pose proof Hr as (Hf & t & Ht & Hwf & _).
  pose proof (sub64_in_range _ Hrange) as Hsub.
  (* the backward step *)
  set (dbA := with_history (Some (insert_row (Version m - 1) true t)) db).
  destruct (Hkd dbA (insert_row (Version m - 1) true t))
    as (HfB & tB & HtB & HwfB);
    [exact Hf | reflexivity | now apply insert_row_wf |].
  pose proof (Hsd dbA) as HnoneB.
  destruct (down dbA) as [eB dbB] eqn:EB. simpl in *. subst eB.
  set (db1 := with_history (Some (insert_row (Version m - 1) false tB)) dbB).
  assert (Hr1 : ready db1 (Version m - 1)).
  { split; [exact HfB|]. exists (insert_row (Version m - 1) false tB).
    split; [reflexivity|]. split; [now apply insert_row_wf|].
    rewrite latest_insert_row by assumption. now split. }
  assert (Hfind : findPrevious (sort_byVersion ms) (Version m) = Some m).
  { apply findPrevious_greatest.
    - apply sort_byVersion_sorted.
    - now apply sort_byVersion_NoDup.
    - now apply sort_byVersion_In.
    - lia.
    - intros m' Hm' _. apply Hmax.
      exact (proj1 (sort_byVersion_In _ _) Hm'). }
  (* the forward step *)
  destruct (applyUp_succeeds (parseOptions optionsU) m up db1 (Version m - 1)
              (parseOptions_dialect optionsU) Hku Hsu Hr1) as (db2 & A & Hr2).
  assert (Hfilter : filter (pending (Version m - 1)) (sort_byVersion ms) = [m]).
  { apply filter_only.
    - apply (NoDup_map_inv Version). now apply sort_byVersion_NoDup.
    - now apply sort_byVersion_In.
    - apply pending_spec. split; [lia | congruence].
    - intros x Hx Px. apply pending_spec in Px as [Hlt _].
      pose proof (proj1 (sort_byVersion_In _ _) Hx) as Hx'.
      apply (NoDup_map_inj Version ms); auto.
      specialize (Hmax x Hx'). lia. }
  exists db1, db2. split; [|split; [exact Hr1|split; [|exact Hr2]]].
  - destruct (ready_prologue _ _ _ (parseOptions_dialect optionsD) Hr) as [C G].
    rewrite (Run_after_prologue ms optionsD db db (Version m) db Hne C G).
    rewrite runMigrations_down by now apply parseOptions_down.
    rewrite (runDown_step _ _ _ m db dbA dbB db1); try assumption.
    + rewrite Hsub. replace (Version m =? Version m - 1) with false; [reflexivity|].
      symmetry. apply Z.eqb_neq. lia.
    + rewrite Hsub.
      apply setVersion_ok; [apply parseOptions_dialect | exact Hf | exact Ht].
    + rewrite Hdown. exact EB.
    + rewrite Hsub.
      apply setVersion_ok; [apply parseOptions_dialect | exact HfB | exact HtB].
  - destruct (ready_prologue _ _ _ (parseOptions_dialect optionsU) Hr1) as [C G].
    rewrite (Run_after_prologue ms optionsU db1 db1 (Version m - 1) db1 Hne C G).
    rewrite runMigrations_up by now apply parseOptions_up.
    unfold runUp. rewrite runUp_loop_filter, Hfilter.
    rewrite (runUp_loop_step _ _ _ _ up)
      by (try apply pending_spec; try split; try congruence; lia).
    rewrite A. simpl.
    replace (Version m - 1 =? Version m) with false; [reflexivity|].
    symmetry. apply Z.eqb_neq. lia.
Qed.

Lemma Run_down_then_up_restores_witness :
  let m1 := mkMigration 1 (Some noop) (Some noop) in
  let m2 := mkMigration 2 (Some noop) (Some noop) in
  let db := mkDB (Some (mkTable 2 [mkRow 1 2 false])) [] [] in
  exists db1 db2,
    Run [m2; m1] [DOWN] db = (([m1; m2], mkResult true (2 - 1) None), db1)
    /\ ready db1 (2 - 1)
    /\ Run [m2; m1] [UP] db1 = (([m1; m2], mkResult true 2 None), db2)
    /\ ready db2 2.
Proof.
  intros m1 m2 db.
  apply (Run_down_then_up_restores [m2; m1] [DOWN] [UP] db m2 noop noop).
  - now left.
  - simpl. intros [H|[]]. discriminate H.
  - simpl. repeat constructor; simpl; intuition discriminate.
  - now left.
  - simpl. intros m' [<-|[<-|[]]]; simpl; lia.
  - discriminate.
  - unfold min_int64, max_int64. simpl. lia.
  - reflexivity.
  - intros d t Hf Ht Hwf. simpl. eauto.
  - intros d. reflexivity.
  - reflexivity.
  - intros d t Hf Ht Hwf. simpl. eauto.
  - intros d. reflexivity.
  - split; [reflexivity|]. exists (mkTable 2 [mkRow 1 2 false]).
    split; [reflexivity|]. split; [repeat constructor; simpl; lia|].
    simpl. now split.
Defined.

(** * The earlier snapshot (src/trek.go) *)

Lemma legacy_roundtrip_ok db :
  LegacyEngine.faults db = [] -> LegacyEngine.roundtrip db = (None, db).
Proof. unfold LegacyEngine.roundtrip. now intros ->. Qed.

Lemma legacy_roundtrip_inv db e db' :
  LegacyEngine.roundtrip db = (e, db') ->
  LegacyEngine.history db' = LegacyEngine.history db
  /\ LegacyEngine.relations db' = LegacyEngine.relations db
  /\ (e = None \/ exists msg, e = Some (ErrDriver msg)
                    /\ In (Some msg) (LegacyEngine.faults db)).
Proof.
  unfold LegacyEngine.roundtrip.
  destruct (LegacyEngine.faults db) as [|[msg|] fs] eqn:F;
    intros [= <- <-]; simpl; repeat split; auto.
  right. exists msg. split; [reflexivity | now left].
Qed.

Lemma legacy_with_history_same db t :
  LegacyEngine.history db = Some t ->
  LegacyEngine.with_history (Some t) db = db.
Proof. destruct db as [h rel fs]. simpl. now intros ->. Qed.

Lemma legacy_setVersion_ok config v db t :
  recognized_dialect config ->
  LegacyEngine.faults db = [] -> LegacyEngine.history db = Some t ->
  LegacyEngine.setVersion config v db =
  (None, LegacyEngine.with_history (Some (LegacyEngine.insert_row v t)) db).
Proof.
  intros Hd Hf Ht.
  unfold LegacyEngine.setVersion, LegacyEngine.prepare_insert,
    LegacyEngine.stmt_exec, LegacyEngine.bind.
  destruct Hd as [-> | ->]; simpl;
    rewrite (legacy_roundtrip_ok _ Hf), Ht; simpl;
    now rewrite (legacy_roundtrip_ok _ Hf), Ht.
Qed.

Lemma legacy_setVersion_failed config v db e db' :
  LegacyEngine.setVersion config v db = (Some e, db') ->
  LegacyEngine.history db' = LegacyEngine.history db
  /\ LegacyEngine.relations db' = LegacyEngine.relations db.
Proof.
  unfold LegacyEngine.setVersion, LegacyEngine.prepare_insert,
    LegacyEngine.stmt_exec, LegacyEngine.bind.
  destruct (_ || _); [|now intros [= <- <-]].
  destruct (LegacyEngine.roundtrip db) as [[e1|] db1] eqn:R1;
    apply legacy_roundtrip_inv in R1 as (H1 & L1 & _).
  { intros [= <- <-]. split; congruence. }
  destruct (LegacyEngine.history db1) as [t|] eqn:Ht;
    [|intros [= <- <-]; split; congruence].
  destruct (LegacyEngine.roundtrip db1) as [[e2|] db2] eqn:R2;
    apply legacy_roundtrip_inv in R2 as (H2 & L2 & _).
  - intros [= <- <-]. split; congruence.
  - rewrite H2, Ht. discriminate.
Qed.

Lemma legacy_insert_byVersion_In m x ms :
  In x (LegacyEngine.insert_byVersion m ms) <-> x = m \/ In x ms.
Proof.
  induction ms as [|a ms IH]; simpl.
  - intuition.
  - destruct (LegacyEngine.Less a m); simpl; rewrite ?IH; intuition.
Qed.

Lemma legacy_sort_byVersion_In x ms :
  In x (LegacyEngine.sort_byVersion ms) <-> In x ms.
Proof.
  induction ms as [|a ms IH]; simpl; [tauto|].
  rewrite legacy_insert_byVersion_In, IH. intuition.
Qed.

Lemma legacy_Run_after_prologue ms options db db0 oldVersion db1 :
  ms <> [] ->
  LegacyEngine.createTable (Legacy.parseOptions options) db = (None, db0) ->
  LegacyEngine.getVersion db0 = ((oldVersion, None), db1) ->
  LegacyEngine.Run ms options db =
  match LegacyEngine.runMigrations (LegacyEngine.sort_byVersion ms)
          (Legacy.parseOptions options) oldVersion db1 with
  | ((v, e), db2) =>
      ((LegacyEngine.sort_byVersion ms,
        mkResult (negb (oldVersion =? v)) v e), db2)
  end.
Proof.
  intros Hne C G. destruct ms as [|m rest]; [contradiction|].
  unfold LegacyEngine.Run, LegacyEngine.bind. rewrite C, G. simpl.
  now destruct (LegacyEngine.runMigrations _ _ _ db1) as [[v e] db2].
Qed.

(** X14: the earlier [getVersion] recognizes the empty relation by the
    text of the error.  It never returns an error whose text is that of
    [errNoRows]; an empty relation gives [(0, nil)]; and so does a failure
    of the driver that carries that text, whatever the relation holds,
    whereas the later [getVersion], which compares with [sql.ErrNoRows]
    itself, returns that failure. *)
Theorem legacy_getVersion_compares_error_text :
  (forall db v e db',
     LegacyEngine.getVersion db = ((v, Some e), db') ->
     LegacyEngine.error_text e <> LegacyEngine.errNoRows_text)
  /\ (forall db db1 t,
     LegacyEngine.roundtrip db = (None, db1) ->
     LegacyEngine.history db = Some t -> LegacyEngine.rows t = [] ->
     LegacyEngine.getVersion db = ((0, None), db1))
  /\ (forall db fs,
     LegacyEngine.faults db = Some LegacyEngine.errNoRows_text :: fs ->
     LegacyEngine.getVersion db = ((0, None), LegacyEngine.with_faults fs db))
  /\ (forall db fs,
     faults db = Some LegacyEngine.errNoRows_text :: fs ->
     getVersion db =
     ((0, Some (ErrDriver LegacyEngine.errNoRows_text)), with_faults fs db)).
Proof.
  split; [|split; [|split]].
  - intros db v e db' H.
    unfold LegacyEngine.getVersion, LegacyEngine.bind in H.
    destruct (LegacyEngine.query_latest db) as [[v0 [e0|]] db0]; simpl in H.
    + destruct (String.eqb_spec (LegacyEngine.error_text e0)
                  LegacyEngine.errNoRows_text) as [E|N].
      * discriminate H.
      * injection H as _ <- _. exact N.
    + discriminate H.
  - intros db db1 t R Ht Hrows.
    unfold LegacyEngine.getVersion, LegacyEngine.query_latest, LegacyEngine.bind.
    rewrite R. apply legacy_roundtrip_inv in R as (H1 & _).
    now rewrite H1, Ht, Hrows.
  - intros db fs Hf.
    unfold LegacyEngine.getVersion, LegacyEngine.query_latest,
      LegacyEngine.bind, LegacyEngine.roundtrip.
    now rewrite Hf.
  - intros db fs Hf.
    unfold getVersion, query_latest, bind, roundtrip. now rewrite Hf.
Qed.

Lemma legacy_getVersion_compares_error_text_witness :
  let t := LegacyEngine.mkTable 2 [LegacyEngine.mkRow 1 5] in
  LegacyEngine.getVersion
    (LegacyEngine.mkDB (Some t) [] [Some LegacyEngine.errNoRows_text]) =
  ((0, None), LegacyEngine.mkDB (Some t) [] [])
  /\ LegacyEngine.getVersion
       (LegacyEngine.mkDB (Some (LegacyEngine.mkTable 1 [])) [] []) =
     ((0, None), LegacyEngine.mkDB (Some (LegacyEngine.mkTable 1 [])) [] []).
Proof.
  intros t.
  destruct legacy_getVersion_compares_error_text as (_ & Hempty & Hswallow & _).
  split.
  - apply (Hswallow (LegacyEngine.mkDB (Some t) []
                       [Some LegacyEngine.errNoRows_text]) []).
    reflexivity.
  - apply (Hempty _ _ (LegacyEngine.mkTable 1 [])); reflexivity.
Defined.

Lemma legacy_runUp_loop_skip_all config oldVersion ms : forall newVersion db,
  (forall m, In m ms -> LegacyEngine.Version m <= oldVersion) ->
  LegacyEngine.runUp_loop config oldVersion newVersion ms db =
  ((newVersion, None), db).
Proof.
  induction ms as [|m rest IH]; intros newVersion db H; [reflexivity|].
  simpl. assert (E : (LegacyEngine.Version m <=? oldVersion) = true)
    by (apply Z.leb_le, H; now left).
  rewrite E. apply IH. intros m' Hm'. apply H. now right.
Qed.

(** X15: in the earlier snapshot [runUp] starts from [newVersion = 0], not
    from the current version.  When no registered version is above the
    current version [v], [Run] with action [UP] writes nothing and calls
    no handler, yet returns [{v <> 0, 0, nil}]: at any version other than
    [0] it reports a change to version [0]. *)
Theorem legacy_Run_up_nothing_pending :
  forall ms options db db0 oldVersion db1,
    ms <> [] ->
    Action (Legacy.parseOptions options) = UP ->
    LegacyEngine.createTable (Legacy.parseOptions options) db = (None, db0) ->
    LegacyEngine.getVersion db0 = ((oldVersion, None), db1) ->
    (forall m, In m ms -> LegacyEngine.Version m <= oldVersion) ->
    LegacyEngine.Run ms options db =
    ((LegacyEngine.sort_byVersion ms,
      mkResult (negb (oldVersion =? 0)) 0 None), db1).
Proof.
  intros ms options db db0 oldVersion db1 Hne HA HC HG Hall.
  rewrite (legacy_Run_after_prologue _ _ _ _ _ _ Hne HC HG).
  unfold LegacyEngine.runMigrations. rewrite HA. simpl.
  unfold LegacyEngine.runUp. rewrite legacy_runUp_loop_skip_all; [reflexivity|].
  intros m Hm. apply Hall. now apply legacy_sort_byVersion_In.
Qed.

Lemma legacy_Run_up_nothing_pending_witness :
  let m1 := LegacyEngine.mkMigration 1 None None in
  let db := LegacyEngine.mkDB
              (Some (LegacyEngine.mkTable 2 [LegacyEngine.mkRow 1 1])) [] [] in
  LegacyEngine.Run [m1] [Legacy.VString POSTGRES; Legacy.VString UP] db =
  (([m1], mkResult true 0 None), db).
Proof.
  intros m1 db.
  apply (legacy_Run_up_nothing_pending [m1]
           [Legacy.VString POSTGRES; Legacy.VString UP] db db 1 db);
    try reflexivity.
  - discriminate.
  - intros m [<-|[]]. simpl. lia.
Defined.

Lemma legacy_runUp_loop_skip config oldVersion newVersion m rest :
  LegacyEngine.Version m <= oldVersion ->
  LegacyEngine.runUp_loop config oldVersion newVersion (m :: rest) =
  LegacyEngine.runUp_loop config oldVersion newVersion rest.
Proof. intros H. simpl. apply Z.leb_le in H. now rewrite H. Qed.

Lemma legacy_runUp_loop_step config oldVersion newVersion m rest db :
  oldVersion < LegacyEngine.Version m ->
  LegacyEngine.runUp_loop config oldVersion newVersion (m :: rest) db =
  match LegacyEngine.invoke (LegacyEngine.Up m) db with
  | (Some e, db1) => ((newVersion, Some e), db1)
  | (None, db1) =>
      match LegacyEngine.setVersion config (LegacyEngine.Version m) db1 with
      | (Some e, db2) => ((newVersion, Some e), db2)
      | (None, db2) =>
          LegacyEngine.runUp_loop config oldVersion (LegacyEngine.Version m)
            rest db2
      end
  end.
Proof.
  intros H. simpl. apply Z.leb_gt in H. rewrite H. unfold LegacyEngine.bind.
  destruct (LegacyEngine.invoke (LegacyEngine.Up m) db) as [[e|] db1];
    [reflexivity|].
  now destruct (LegacyEngine.setVersion config (LegacyEngine.Version m) db1)
    as [[e|] db2].
Qed.

Lemma legacy_runUp_loop_no_handlers config oldVersion ms :
  recognized_dialect config ->
  (forall m, In m ms -> LegacyEngine.Up m = None) ->
  forall newVersion db t,
    LegacyEngine.faults db = [] -> LegacyEngine.history db = Some t ->
    LegacyEngine.runUp_loop config oldVersion newVersion ms db =
    ((last (map LegacyEngine.Version
              (filter (fun m => oldVersion <? LegacyEngine.Version m) ms))
           newVersion, None),
     LegacyEngine.with_history
       (Some (LegacyEngine.record_all
                (map LegacyEngine.Version
                   (filter (fun m => oldVersion <? LegacyEngine.Version m) ms))
                t)) db).
Proof.
  intros Hd. induction ms as [|m rest IH]; intros Hnil newVersion db t Hf Ht.
  - simpl. now rewrite legacy_with_history_same.
  - assert (Hnil' : forall m', In m' rest -> LegacyEngine.Up m' = None)
      by (intros m' Hm'; apply Hnil; now right).
    cbn [filter].
    destruct (Z.ltb_spec oldVersion (LegacyEngine.Version m)) as [Hlt|Hge].
    + rewrite legacy_runUp_loop_step by assumption.
      rewrite (Hnil m) by now left. simpl LegacyEngine.invoke.
      unfold LegacyEngine.ret at 1.
      rewrite (legacy_setVersion_ok _ _ _ t) by assumption.
      rewrite (IH Hnil' _ _ (LegacyEngine.insert_row (LegacyEngine.Version m) t))
        by (simpl; auto).
      cbn [map]. now rewrite last_cons_shift.
    + rewrite legacy_runUp_loop_skip by assumption. now apply IH.
Qed.

(** X16: in the earlier snapshot a migration without up procedure is
    applied as a no-op and recorded.  With a driver that answers, an
    existing relation and a registry none of whose migrations has an up
    procedure, [runUp] returns no error and the version of the last
    registered migration above the current version ([0] when there is
    none), and appends one row per such migration, in registry order. *)
Theorem legacy_runUp_records_without_up :
  forall ms config oldVersion db t,
    recognized_dialect config ->
    LegacyEngine.faults db = [] -> LegacyEngine.history db = Some t ->
    (forall m, In m ms -> LegacyEngine.Up m = None) ->
    LegacyEngine.runUp ms config oldVersion db =
    ((last (map LegacyEngine.Version
              (filter (fun m => oldVersion <? LegacyEngine.Version m) ms)) 0,
      None),
     LegacyEngine.with_history
       (Some (LegacyEngine.record_all
                (map LegacyEngine.Version
                   (filter (fun m => oldVersion <? LegacyEngine.Version m) ms))
                t)) db).
Proof.
  intros ms config oldVersion db t Hd Hf Ht Hnil.
  unfold LegacyEngine.runUp. now apply legacy_runUp_loop_no_handlers.
Qed.

Lemma legacy_runUp_records_without_up_witness :
  let ms := [LegacyEngine.mkMigration 1 None None;
             LegacyEngine.mkMigration 2 None None;
             LegacyEngine.mkMigration 3 None None] in
  let db := LegacyEngine.mkDB
              (Some (LegacyEngine.mkTable 2 [LegacyEngine.mkRow 1 1])) [] [] in
  LegacyEngine.runUp ms (mkConfig UP POSTGRES) 1 db =
  ((3, None),
   LegacyEngine.mkDB
     (Some (LegacyEngine.mkTable 4 [LegacyEngine.mkRow 1 1;
                                    LegacyEngine.mkRow 2 2;
                                    LegacyEngine.mkRow 3 3])) [] []).
Proof.
  intros ms db.
  apply (legacy_runUp_records_without_up ms (mkConfig UP POSTGRES) 1 db
           (LegacyEngine.mkTable 2 [LegacyEngine.mkRow 1 1])).
  - now left.
  - reflexivity.
  - reflexivity.
  - intros m [<-|[<-|[<-|[]]]]; reflexivity.
Defined.

(** X17: the earlier [runDown] never returns the current version.  At a
    current version other than [0], with registered versions that are
    int64 above the least one, whatever happens (no migration found, the
    down procedure fails, the version-record write fails, or all goes
    well) the version returned differs from the current one: it is [0],
    or [m.Version - 1] for a registered migration [m] whose version is at
    most the current one.  So [Run] reports a change whenever it gets
    that far, error or not.  When every registered version is above the
    current one the result is [0] with [errPreviousMigrationNotFound] and
    nothing is done. *)
Theorem legacy_runDown_never_returns_current :
  forall ms config oldVersion db v e db',
    oldVersion <> 0 ->
    (forall m, In m ms -> min_int64 < LegacyEngine.Version m <= max_int64) ->
    LegacyEngine.runDown ms config oldVersion db = ((v, e), db') ->
    v <> oldVersion
    /\ (v = 0 \/ exists m, In m ms /\ LegacyEngine.Version m <= oldVersion
                      /\ v = LegacyEngine.Version m - 1)
    /\ ((forall m, In m ms -> oldVersion < LegacyEngine.Version m) ->
        v = 0 /\ e = Some errPreviousMigrationNotFound /\ db' = db).
Proof.
  intros ms config oldVersion db v e db' Hz Hrange H.
  unfold LegacyEngine.runDown, LegacyEngine.bind in H.
  destruct (Z.eqb_spec oldVersion 0) as [E|_]; [contradiction|].
  destruct (LegacyEngine.findPrevious ms oldVersion) as [m|] eqn:F.
  - unfold LegacyEngine.findPrevious in F. apply find_some in F as [Hin Hle].
    apply in_rev in Hin. apply Z.leb_le in Hle.
    pose proof (sub64_in_range _ (Hrange m Hin)) as Hsub.
    assert (Habove : (forall m0, In m0 ms -> oldVersion < LegacyEngine.Version m0)
                     -> False)
      by (intros Hall; specialize (Hall m Hin); lia).
    destruct (LegacyEngine.invoke (LegacyEngine.Down m) db) as [[e1|] db1].
    + injection H as <- <- <-. split; [congruence|].
      split; [now left | intros Hall; now destruct (Habove Hall)].
    + destruct (LegacyEngine.setVersion config
                  (sub64 (LegacyEngine.Version m) 1) db1) as [e2 db2].
      injection H as <- <- <-. rewrite Hsub. split; [lia|]. split.
      * right. now exists m.
      * intros Hall. now destruct (Habove Hall).
  - injection H as <- <- <-. split; [congruence|]. split; [now left|].
    intros _. now repeat split.
Qed.

Lemma legacy_runDown_never_returns_current_witness :
  let m3 := LegacyEngine.mkMigration 3 None None in
  let db := LegacyEngine.mkDB
              (Some (LegacyEngine.mkTable 2 [LegacyEngine.mkRow 1 3]))
              [] [Some "gone"%string] in
  (2 <> 3)
  /\ (2 = 0 \/ exists m, In m [m3] /\ LegacyEngine.Version m <= 3
                    /\ 2 = LegacyEngine.Version m - 1)
  /\ ((forall m, In m [m3] -> 3 < LegacyEngine.Version m) ->
      2 = 0 /\ Some (ErrDriver "gone") = Some errPreviousMigrationNotFound
      /\ LegacyEngine.mkDB
           (Some (LegacyEngine.mkTable 2 [LegacyEngine.mkRow 1 3])) [] [] = db).
Proof.
  intros m3 db.
  apply (legacy_runDown_never_returns_current [m3] (mkConfig DOWN MYSQL) 3 db
           2 (Some (ErrDriver "gone"))
           (LegacyEngine.mkDB
              (Some (LegacyEngine.mkTable 2 [LegacyEngine.mkRow 1 3])) [] [])).
  - discriminate.
  - intros m [<-|[]]. unfold min_int64, max_int64. simpl. lia.
  - reflexivity.
Defined.
